(** * Replication placement on a consistent-hash token ring (tokendistributor)

    Shallow embedding of the replication strategies of the
    [tokendistributor] package: the ring index (sorted tokens and the
    token-to-instance map), circular token distance, and the simple and
    zone-aware strategies with [getReplicaSet], [getReplicaStart] and
    [getLastReplicaToken].  The package's implementation file is not part of
    the sources at hand (only its tests are), so the operations are modelled
    from the specification's description of them; each such definition says
    so in its doc comment. *)

From Stdlib Require Import ZArith Lia List Permutation Ascii String DecimalString DecimalN.
From stdpp Require Import base list gmap strings.

Import ListNotations.
Open Scope nat_scope.

Abbreviation Token := Z.

(** ** Errors and results *)

Inductive ringError :=
  | EmptyRing
  | TokenNotOnRing
  | NotEnoughInstances
  | NotEnoughZones
  | InvalidReplicationFactor
  | MissingZoneMapping.

Inductive result (A : Type) :=
  | Ok (a : A)
  | Err (e : ringError).
Arguments Ok {A} a.
Arguments Err {A} e.

(** ** Token arithmetic *)

(** Modelled from the spec: [Token.distance] (section 4.2), the clockwise
    distance from [a] to [b] on a ring of size [maxTokenValue]. *)
Definition distance (a b maxTokenValue : Token) : Token :=
  if (a <=? b)%Z then (b - a)%Z else (maxTokenValue - a + b)%Z.

(** ** Ring index *)

(** Modelled from the spec: the ring index primitives of section 4.1. *)
Definition tokenAt (sortedRingTokens : list Token) (i : nat) : Token :=
  nth i sortedRingTokens 0%Z.

(** A Go map lookup: a missing key reads as the zero value. *)
Definition instanceOf (ringInstanceByToken : gmap Z string) (t : Token) : string :=
  default "" (ringInstanceByToken !! t).

(** Smallest index whose token is [>= t] ([length] when there is none), the
    result of the binary search over the sorted tokens. *)
Fixpoint searchToken (sortedRingTokens : list Token) (t : Token) : nat :=
  match sortedRingTokens with
  | [] => 0
  | x :: rest => if (t <=? x)%Z then 0 else S (searchToken rest t)
  end.

(** Modelled from the spec: [successorIndex] (I3, section 4.1), wrapping to 0
    past the highest token. *)
Definition successorIndex (sortedRingTokens : list Token) (t : Token) : nat :=
  let i := searchToken sortedRingTokens t in
  if i =? length sortedRingTokens then 0 else i.

(** Modelled from the spec: the exact-match lookup of [replicaStart]
    (section 4.4): the index of [t] in the sorted tokens, if it is there. *)
Definition indexOf (sortedRingTokens : list Token) (t : Token) : option nat :=
  let i := searchToken sortedRingTokens t in
  if (i <? length sortedRingTokens) && (tokenAt sortedRingTokens i =? t)%Z
  then Some i else None.

(** ** Strategies *)

(** The two implementations of the replication strategy interface. *)
Inductive Strategy :=
  | SimpleReplicationStrategy (replicationFactor : nat)
  | ZoneAwareReplicationStrategy (replicationFactor : nat)
      (zoneByInstance : gmap string string).

Definition replicationFactor (s : Strategy) : nat :=
  match s with
  | SimpleReplicationStrategy r => r
  | ZoneAwareReplicationStrategy r _ => r
  end.

(** What a walk tracks for an instance: the instance itself (simple) or its
    zone (zone-aware); [None] is an instance without a zone entry. *)
Definition strategyKey (s : Strategy) (inst : string) : option string :=
  match s with
  | SimpleReplicationStrategy _ => Some inst
  | ZoneAwareReplicationStrategy _ zoneByInstance => zoneByInstance !! inst
  end.

Definition notEnoughError (s : Strategy) : ringError :=
  match s with
  | SimpleReplicationStrategy _ => NotEnoughInstances
  | ZoneAwareReplicationStrategy _ _ => NotEnoughZones
  end.

(** ** The ring walks, shared by both strategies *)

Section Walks.
(** [n] tokens on the ring, replication factor [R], the instance at each
    index and the key (instance or zone) the strategy tracks for it. *)
Variables (n R : nat) (inst : nat -> string) (keyOf : string -> option string).

Definition key (j : nat) : option string := keyOf (inst j).

(** Modelled from the spec: the clockwise walk of [replicaSet] (sections
    4.4 and 4.5) from index [i0]: step [e] visits index [(i0 + e) mod n];
    a token whose key is already in [seen] is skipped, otherwise its
    instance is appended; the walk succeeds once [R] keys are collected and
    fails with [notEnough] after visiting all [n] tokens. *)
Fixpoint set_walk (notEnough : ringError) (i0 : nat) (fuel e : nat)
    (seen acc : list string) : result (list string) :=
  match fuel with
  | O => Err notEnough
  | S f =>
      let j := (i0 + e) mod n in
      match key j with
      | None => Err MissingZoneMapping
      | Some k =>
          if decide (k ∈ seen) then set_walk notEnough i0 f (S e) seen acc
          else
            let acc' := acc ++ [inst j] in
            let seen' := seen ++ [k] in
            if length seen' =? R then Ok acc'
            else set_walk notEnough i0 f (S e) seen' acc'
      end
  end.

(** Modelled from the spec: the counter-clockwise walk of [replicaStart]
    (sections 4.4, 4.5 and 9, scenarios S5 to S7) from index [i], whose
    key is [ki]: step [d] visits [j = (i + n - d) mod n].  A token with the
    key of [i] itself (its instance, or its zone) ends the arc, and the walk
    returns [next(j)] (so a predecessor of the same instance or zone gives
    [i] itself); a key already in [seen] is passed over; a new key is added
    unless it would be the [(R+1)]-th, where the walk returns [next(j)];
    having come back to [i] it returns [i] itself. *)
Fixpoint start_walk (i : nat) (ki : string) (fuel d : nat) (seen : list string)
    : result nat :=
  match fuel with
  | O => Ok i
  | S f =>
      let j := (i + n - d) mod n in
      match key j with
      | None => Err MissingZoneMapping
      | Some k =>
          if decide (k = ki) then Ok ((j + 1) mod n)
          else if decide (k ∈ seen) then start_walk i ki f (S d) seen
          else if length seen =? R then Ok ((j + 1) mod n)
          else start_walk i ki f (S d) (k :: seen)
      end
  end.

(** Modelled from the spec: the clockwise walk of [lastReplicaToken]
    (section 4.4) from index [k0]: step [e] visits [j = (k0 + e) mod n];
    when a new key would be the [(R+1)]-th the walk returns [prev(j)], the
    last index before it; having come back to [k0] it returns [prev(k0)],
    the last index walked. *)
Fixpoint last_walk (k0 : nat) (fuel e : nat) (seen : list string)
    : result nat :=
  match fuel with
  | O => Ok ((k0 + n - 1) mod n)
  | S f =>
      let j := (k0 + e) mod n in
      match key j with
      | None => Err MissingZoneMapping
      | Some k =>
          if decide (k ∈ seen) then last_walk k0 f (S e) seen
          else if length seen =? R then Ok ((j + n - 1) mod n)
          else last_walk k0 f (S e) (k :: seen)
      end
  end.
End Walks.

(** ** The strategy operations *)

(** Modelled from the spec: [getReplicaSet] (sections 4.3 to 4.5). *)
Definition getReplicaSet (s : Strategy) (token : Token)
    (sortedRingTokens : list Token) (ringInstanceByToken : gmap Z string)
    : result (list string) :=
  let R := replicationFactor s in
  if R =? 0 then Err InvalidReplicationFactor else
  match sortedRingTokens with
  | [] => Err EmptyRing
  | _ =>
      let n := length sortedRingTokens in
      let inst j := instanceOf ringInstanceByToken (tokenAt sortedRingTokens j) in
      set_walk n R inst (strategyKey s) (notEnoughError s)
        (successorIndex sortedRingTokens token) n 0 [] []
  end.

(** Modelled from the spec: [getReplicaStart] (sections 4.3 to 4.5 and 9). *)
Definition getReplicaStart (s : Strategy) (token : Token)
    (sortedRingTokens : list Token) (ringInstanceByToken : gmap Z string)
    : result Token :=
  let R := replicationFactor s in
  if R =? 0 then Err InvalidReplicationFactor else
  match sortedRingTokens with
  | [] => Err EmptyRing
  | _ =>
      let n := length sortedRingTokens in
      let inst j := instanceOf ringInstanceByToken (tokenAt sortedRingTokens j) in
      match indexOf sortedRingTokens token with
      | None => Err TokenNotOnRing
      | Some i =>
          match key inst (strategyKey s) i with
          | None => Err MissingZoneMapping
          | Some k =>
              match start_walk n R inst (strategyKey s) i k (n - 1) 1 [k] with
              | Ok j => Ok (tokenAt sortedRingTokens j)
              | Err e => Err e
              end
          end
      end
  end.

(** Modelled from the spec: [getLastReplicaToken] (sections 4.3 to 4.5). *)
Definition getLastReplicaToken (s : Strategy) (token : Token)
    (sortedRingTokens : list Token) (ringInstanceByToken : gmap Z string)
    : result Token :=
  let R := replicationFactor s in
  if R =? 0 then Err InvalidReplicationFactor else
  match sortedRingTokens with
  | [] => Err EmptyRing
  | _ =>
      let n := length sortedRingTokens in
      let inst j := instanceOf ringInstanceByToken (tokenAt sortedRingTokens j) in
      match indexOf sortedRingTokens token with
      | None => Err TokenNotOnRing
      | Some i =>
          match key inst (strategyKey s) i with
          | None => Err MissingZoneMapping
          | Some k =>
              match last_walk n R inst (strategyKey s) i (n - 1) 1 [k] with
              | Ok j => Ok (tokenAt sortedRingTokens j)
              | Err e => Err e
              end
          end
      end
  end.

(** ** Well-formedness of a ring index (section 3) *)

(** I2: the tokens are strictly ascending. *)
Fixpoint ascending (l : list Token) : bool :=
  match l with
  | x :: ((y :: _) as rest) => (x <? y)%Z && ascending rest
  | _ => true
  end.

(** Every token lies in [[0, maxTokenValue)]. *)
Definition tokensInRange (maxTokenValue : Token) (l : list Token) : bool :=
  forallb (fun t => (0 <=? t)%Z && (t <? maxTokenValue)%Z) l.

(** Every instance on the ring has a zone entry. *)
Definition zonesComplete (zoneByInstance : gmap string string)
    (ringInstanceByToken : gmap Z string) (l : list Token) : bool :=
  forallb (fun t => bool_decide (is_Some (zoneByInstance !! instanceOf ringInstanceByToken t))) l.

(** The distinct instances, and the distinct zones, present on the ring. *)
Definition ringInstances (ringInstanceByToken : gmap Z string) (l : list Token)
    : list string :=
  remove_dups (map (instanceOf ringInstanceByToken) l).

Definition ringZones (zoneByInstance : gmap string string)
    (ringInstanceByToken : gmap Z string) (l : list Token) : list string :=
  remove_dups (omap (fun t => zoneByInstance !! instanceOf ringInstanceByToken t) l).

(** ** A fixture ring

    The tests' [createRingTokensInstancesZones] is not among the sources.
    This ring has instances [instance-0], [instance-1], [instance-2] in
    zones [zone-0], [zone-1], [zone-2] (one instance per zone), and tokens
    placed to agree with every assertion of the tests and every scenario of
    section 8: 48 and 902 owned by instance-2, 97 and 853 by instance-1,
    194 and 500 by instance-0. *)
Definition maxTokenValue : Token := 1000%Z.

Definition fixtureTokens : list Token := [48; 97; 194; 500; 853; 902]%Z.

Definition fixtureInstanceByToken : gmap Z string :=
  list_to_map [(48%Z, "instance-2"); (97%Z, "instance-1"); (194%Z, "instance-0");
               (500%Z, "instance-0"); (853%Z, "instance-1"); (902%Z, "instance-2")].

Definition fixtureZoneByInstance : gmap string string :=
  list_to_map [("instance-0", "zone-0"); ("instance-1", "zone-1");
               ("instance-2", "zone-2")].

Definition fixtureInstances : list string := ["instance-0"; "instance-1"; "instance-2"].

Definition simple3 := SimpleReplicationStrategy 3.
Definition zoneAware3 := ZoneAwareReplicationStrategy 3 fixtureZoneByInstance.

Example ex_set_48 :
  getReplicaSet simple3 48 fixtureTokens fixtureInstanceByToken
  = Ok ["instance-2"; "instance-1"; "instance-0"].
Proof. vm_compute. reflexivity. Qed.

(** * Other packages of the repository

    The packages below are embedded from their Go source.  Strings are
    [String.string] (Go strings are byte strings; an [ascii] is one byte),
    Go's [int] and [int64] values are [Z], a Go error is an [option] of its
    message or of an error constructor, and a value returned by a library
    outside the sources (a hash, a remote cache, a client configuration's
    own [Validate]) is an argument of the definition that uses it. *)

(** ** Go's [strings] helpers used below *)

Module gostrings.

(** [strings.HasSuffix]: [len(s) >= len(suffix) && s[len(s)-len(suffix):] == suffix]. *)
Definition HasSuffix (s suffix : string) : bool :=
  (String.length suffix <=? String.length s) &&
  String.eqb (String.substring (String.length s - String.length suffix)
                (String.length suffix) s) suffix.

(** [strings.CutPrefix]: [s[len(prefix):], true] when [s] starts with
    [prefix], else [s, false]. *)
Definition CutPrefix (s prefix : string) : string * bool :=
  if String.prefix prefix s
  then (String.substring (String.length prefix) (String.length s - String.length prefix) s, true)
  else (s, false).

(** [strings.TrimSuffix]. *)
Definition TrimSuffix (s suffix : string) : string :=
  if HasSuffix s suffix then String.substring 0 (String.length s - String.length suffix) s
  else s.

End gostrings.

(** ** pkg/storage/ephemeral/label.go *)

Module ephemeral.

(** [labels.MatchType] and [labels.Matcher] of the Prometheus [labels]
    package (the compiled regular expression of a matcher plays no part
    here). *)
Inductive MatchType := MatchEqual | MatchNotEqual | MatchRegexp | MatchNotRegexp.

#[global] Instance MatchType_eq_dec : EqDecision MatchType.
Proof. solve_decision. Defined.

Record Matcher := { Type_ : MatchType; Name : string; Value : string }.

Definition EphemeralLabelName : string := "__ephemeral__".

Definition errInvalidEphemeralLabel : string := "invalid ephemeral label".

(** The test of the loop of [IsEphemeralQuery]:
    [matcher.Name == EphemeralLabelName && matcher.Type == labels.MatchEqual]. *)
Definition isEphemeralMatcher (matcher : Matcher) : bool :=
  String.eqb (Name matcher) EphemeralLabelName && bool_decide (Type_ matcher = MatchEqual).

(** The [for idx, matcher := range matchers] loop of [IsEphemeralQuery],
    from index [idx]. *)
Fixpoint isEphemeralQueryFrom (idx : Z) (matchers : list Matcher) : bool * Z * option string :=
  match matchers with
  | [] => (false, (-1)%Z, None)
  | matcher :: rest =>
      if isEphemeralMatcher matcher then
        if String.eqb (Value matcher) "true" then (true, idx, None)
        else if String.eqb (Value matcher) "false" then (false, idx, None)
        else (false, idx, Some errInvalidEphemeralLabel)
      else isEphemeralQueryFrom (idx + 1)%Z rest
  end.

Definition IsEphemeralQuery (matchers : list Matcher) : bool * Z * option string :=
  isEphemeralQueryFrom 0 matchers.

(** [RemoveEphemeralMatcher]: [matchers[:idx]] followed by [matchers[idx+1:]]. *)
Definition RemoveEphemeralMatcher (matchers : list Matcher) : bool * list Matcher * option string :=
  match IsEphemeralQuery matchers with
  | (ephemeral, idx, err) =>
      if match err with Some _ => true | None => false end || (idx <? 0)%Z
      then (false, matchers, err)
      else (ephemeral, take (Z.to_nat idx) matchers ++ drop (Z.to_nat idx + 1) matchers, None)
  end.

End ephemeral.

(** ** pkg/util/objtools/bucket.go *)

Module objtools.
Import gostrings.

Definition serviceGCS : string := "gcs".
Definition serviceABS : string := "abs".
Definition serviceS3 : string := "s3".
Definition Delim : string := "/".

Record VersionInfo := {
  VersionID : string;
  IsCurrent : bool;
  RequiresUndelete : bool;
  IsDeleteMarker : bool
}.

(** [LastModified] is a [time.Time]; its nanoseconds since the epoch. *)
Record ObjectAttributes := {
  Name : string;
  LastModified : Z;
  VersionInfo_ : VersionInfo
}.

Record ListResult := { Objects : list ObjectAttributes; Prefixes : list string }.

(** A Go [(T, error)] pair where exactly one side is used. *)
Inductive outcome (A : Type) := Done (a : A) | Failed (err : string).
Arguments Done {A} a.
Arguments Failed {A} err.

(** The loop over [result.Objects] of [ToNamesWithoutPrefix]. *)
Fixpoint cutObjectNames (prefix : string) (objects : list ObjectAttributes)
    (names : list string) : outcome (list string) :=
  match objects with
  | [] => Done names
  | attr :: rest =>
      let '(name, hasPrefix) := CutPrefix (Name attr) prefix in
      if negb hasPrefix then
        Failed ("ToNames: object result has an invalid prefix: " ++ Name attr ++
                ", expected prefix: " ++ prefix)%string
      else cutObjectNames prefix rest (names ++ [name])
  end.

(** The loop over [result.Prefixes] of [ToNamesWithoutPrefix]. *)
Fixpoint cutPrefixNames (prefix : string) (prefixes : list string)
    (names : list string) : outcome (list string) :=
  match prefixes with
  | [] => Done names
  | p :: rest =>
      let '(name, hasPrefix) := CutPrefix p prefix in
      if negb hasPrefix then
        Failed ("ToNames: prefux result has an invalid prefix: " ++ p ++
                ", expected prefix: " ++ prefix)%string
      else cutPrefixNames prefix rest (names ++ [TrimSuffix name Delim])
  end.

Definition ToNamesWithoutPrefix (result : ListResult) (prefix : string) : outcome (list string) :=
  let prefix := if negb (String.eqb prefix "") && HasSuffix prefix Delim
                then (prefix ++ Delim)%string else prefix in
  match cutObjectNames prefix (Objects result) [] with
  | Failed err => Failed err
  | Done names => cutPrefixNames prefix (Prefixes result) names
  end.

(** The prefix [ToNamesWithoutPrefix] actually cuts: its first statement. *)
Definition effectivePrefix (prefix : string) : string :=
  if negb (String.eqb prefix "") && HasSuffix prefix Delim
  then (prefix ++ Delim)%string else prefix.

(** [ToNames]: the names, or [nil] on an error. *)
Definition ToNames (result : ListResult) : list string :=
  match ToNamesWithoutPrefix result "" with
  | Done r => r
  | Failed _ => []
  end.

Definition ifNotEmptySuffix (s suffix : string) : string :=
  if String.eqb s "" then "" else (s ++ suffix)%string.

Section Config.
(** The client configurations of the three services and their own
    [Validate(prefix)], which live outside this file. *)
Variables (AzureClientConfig GCSClientConfig S3ClientConfig : Type)
  (azureValidate : AzureClientConfig -> string -> option string)
  (gcsValidate : GCSClientConfig -> string -> option string)
  (s3Validate : S3ClientConfig -> string -> option string).

Record BucketConfig := {
  service : string;
  azure : AzureClientConfig;
  gcs : GCSClientConfig;
  s3 : S3ClientConfig
}.

(** [BucketConfig.validate]. The messages go through [fmt.Errorf] as its
    format; the descriptors used ("", "source", "destination") hold no [%],
    so the message is the string itself. *)
Definition validate (c : BucketConfig) (descriptor : string) : option string :=
  let descriptorFlagPrefix := ifNotEmptySuffix descriptor "-" in
  if String.eqb (service c) "" then
    Some ("--" ++ descriptorFlagPrefix ++ "service is missing")%string
  else if String.eqb (service c) serviceABS then
    azureValidate (azure c) ("azure-" ++ descriptorFlagPrefix)%string
  else if String.eqb (service c) serviceGCS then
    gcsValidate (gcs c) ("gcs-" ++ descriptorFlagPrefix)%string
  else if String.eqb (service c) serviceS3 then
    s3Validate (s3 c) ("s3-" ++ descriptorFlagPrefix)%string
  else Some ("unknown service provided in --" ++ descriptorFlagPrefix ++ "service")%string.

Definition BucketConfig_Validate (c : BucketConfig) : option string := validate c "".

Record CopyBucketConfig := {
  clientSideCopy : bool;
  source : BucketConfig;
  destination : BucketConfig
}.

Definition CopyBucketConfig_Validate (c : CopyBucketConfig) : option string :=
  match validate (source c) "source" with
  | Some err => Some err
  | None => validate (destination c) "destination"
  end.
End Config.

Arguments service {AzureClientConfig GCSClientConfig S3ClientConfig} _.
Arguments azure {AzureClientConfig GCSClientConfig S3ClientConfig} _.
Arguments gcs {AzureClientConfig GCSClientConfig S3ClientConfig} _.
Arguments s3 {AzureClientConfig GCSClientConfig S3ClientConfig} _.

End objtools.

(** ** pkg/storegateway/indexcache/remote.go *)

Module indexcache.

(** [strconv.AppendUint(b, x, 10)] on an empty [b]: the decimal digits of
    [x], without leading zeros ("0" for 0). *)
Definition formatUint (x : N) : string := NilEmpty.string_of_uint (N.to_uint x).

(** [seriesForRefCacheKey]; [blockID] is [blockID.String()], the ULID's
    text form. *)
Definition seriesForRefCacheKey (userID blockID : string) (id : N) : string :=
  ("S:" ++ userID ++ ":" ++ blockID ++ ":" ++ formatUint id)%string.

(** [FetchMultiSeriesForRefs]: the remote cache's [GetMulti] is an
    argument, the map it answers for the requested keys; a [nil] map is the
    empty map. The request and hit counters are metrics only. *)
Fixpoint collectSeriesHits (keysMapping : gmap N string) (results : gmap string (list Byte.byte))
    (ids : list N) (hits : gmap N (list Byte.byte)) (misses : list N)
    : gmap N (list Byte.byte) * list N :=
  match ids with
  | [] => (hits, misses)
  | id :: rest =>
      match keysMapping !! id with
      | None => collectSeriesHits keysMapping results rest hits misses
      | Some key =>
          match results !! key with
          | None => collectSeriesHits keysMapping results rest hits (misses ++ [id])
          | Some value => collectSeriesHits keysMapping results rest (<[id := value]> hits) misses
          end
      end
  end.

Definition FetchMultiSeriesForRefs (GetMulti : list string -> gmap string (list Byte.byte))
    (userID blockID : string) (ids : list N) : gmap N (list Byte.byte) * list N :=
  let keys := map (seriesForRefCacheKey userID blockID) ids in
  let keysMapping := foldl (fun m id => <[id := seriesForRefCacheKey userID blockID id]> m) ∅ ids in
  let results := GetMulti keys in
  if size results =? 0 then (∅, ids)
  else collectSeriesHits keysMapping results ids ∅ [].

(** [labels.Label]. *)
Record Label := { LName : string; LValue : string }.

Definition Size256 : nat := 32.

(** [postingsCacheKeyLabelID]: the label written out as [name:value] into a
    zeroed 32-byte array when it fits, else the BLAKE2b-256 hash of that
    text (the hash is an argument); with the length of the result. *)
Definition postingsCacheKeyLabelID (blake2bSum256 : list Byte.byte -> list Byte.byte)
    (l : Label) : list Byte.byte * nat :=
  let text := list_byte_of_string (LName l ++ ":" ++ LValue l)%string in
  let expectedLen := String.length (LName l) + 1 + String.length (LValue l) in
  if expectedLen <=? Size256 then (text ++ repeat Byte.x00 (Size256 - length text), length text)
  else let hash := blake2bSum256 text in (hash, length hash).

(** [ulid.EncodedSize]: the length of a block ID's text form. *)
Definition ulidEncodedSize : nat := 26.

(** [postingsCacheKey]. The key is written into a buffer sized for a
    block ID of [ulid.EncodedSize] characters; [base64Encode] is
    [base64.RawURLEncoding], whose [Encode] writes [EncodedLen(hashLen)]
    bytes and panics on a shorter destination, which is the case exactly
    when the block ID is longer (the panic is [None]). *)
Definition postingsCacheKey (blake2bSum256 : list Byte.byte -> list Byte.byte)
    (base64Encode : list Byte.byte -> string) (userID blockID : string) (l : Label) : option string :=
  let '(lblHash, hashLen) := postingsCacheKeyLabelID blake2bSum256 l in
  if String.length blockID <=? ulidEncodedSize
  then Some ("P2:" ++ userID ++ ":" ++ blockID ++ ":" ++ base64Encode (take hashLen lblHash))%string
  else None.

Definition expandedPostingsCacheKey (blake2bSum256 : list Byte.byte -> list Byte.byte)
    (base64Encode : list Byte.byte -> string)
    (userID blockID lmKey postingsSelectionStrategy : string) : string :=
  let hash := blake2bSum256 (list_byte_of_string lmKey) in
  ("E2:" ++ userID ++ ":" ++ blockID ++ ":" ++ base64Encode hash ++ ":" ++
   postingsSelectionStrategy)%string.

(** [seriesForPostingsCacheKey]; [shardKey] lives in another file. *)
Definition seriesForPostingsCacheKey {ShardSelector : Type} (shardKey : ShardSelector -> string)
    (userID blockID : string) (shard : ShardSelector) (postingsKey : string) : string :=
  ("SP2:" ++ userID ++ ":" ++ blockID ++ ":" ++ shardKey shard ++ ":" ++ postingsKey)%string.

Definition labelNamesCacheKey (blake2bSum256 : list Byte.byte -> list Byte.byte)
    (base64Encode : list Byte.byte -> string) (userID blockID matchersKey : string) : string :=
  let hash := blake2bSum256 (list_byte_of_string matchersKey) in
  ("LN:" ++ userID ++ ":" ++ blockID ++ ":" ++ base64Encode hash)%string.

Definition labelValuesCacheKey (blake2bSum256 : list Byte.byte -> list Byte.byte)
    (base64Encode : list Byte.byte -> string)
    (userID blockID labelName matchersKey : string) : string :=
  let hash := blake2bSum256 (list_byte_of_string matchersKey) in
  ("LV2:" ++ userID ++ ":" ++ blockID ++ ":" ++ labelName ++ ":" ++ base64Encode hash)%string.

(** The item types of the [cacheType...] constants passed to [set] and
    [get]. *)
Inductive CacheType :=
  | cacheTypePostings
  | cacheTypeSeriesForRef
  | cacheTypeExpandedPostings
  | cacheTypeSeriesForPostings
  | cacheTypeLabelNames
  | cacheTypeLabelValues.

(** The item a [Store...] or [Fetch...] method of [RemoteIndexCache] reads
    or writes, with the arguments of its key; block IDs are
    [blockID.String()]. *)
Inductive CacheItem (ShardSelector : Type) :=
  | PostingsItem (userID blockID : string) (l : Label)
  | SeriesForRefItem (userID blockID : string) (id : N)
  | ExpandedPostingsItem (userID blockID lmKey postingsSelectionStrategy : string)
  | SeriesForPostingsItem (userID blockID : string) (shard : ShardSelector) (postingsKey : string)
  | LabelNamesItem (userID blockID matchersKey : string)
  | LabelValuesItem (userID blockID labelName matchersKey : string).
Arguments PostingsItem {ShardSelector}.
Arguments SeriesForRefItem {ShardSelector}.
Arguments ExpandedPostingsItem {ShardSelector}.
Arguments SeriesForPostingsItem {ShardSelector}.
Arguments LabelNamesItem {ShardSelector}.
Arguments LabelValuesItem {ShardSelector}.

(** The [typ] each method passes to [set] or [get]. *)
Definition cacheItemType {ShardSelector : Type} (item : CacheItem ShardSelector) : CacheType :=
  match item with
  | PostingsItem _ _ _ => cacheTypePostings
  | SeriesForRefItem _ _ _ => cacheTypeSeriesForRef
  | ExpandedPostingsItem _ _ _ _ => cacheTypeExpandedPostings
  | SeriesForPostingsItem _ _ _ _ => cacheTypeSeriesForPostings
  | LabelNamesItem _ _ _ => cacheTypeLabelNames
  | LabelValuesItem _ _ _ _ => cacheTypeLabelValues
  end.

(** The [key] each method passes to [set] or [get] ([None]: the key
    computation panics). *)
Definition cacheItemKey {ShardSelector : Type} (blake2bSum256 : list Byte.byte -> list Byte.byte)
    (base64Encode : list Byte.byte -> string) (shardKey : ShardSelector -> string)
    (item : CacheItem ShardSelector) : option string :=
  match item with
  | PostingsItem userID blockID l => postingsCacheKey blake2bSum256 base64Encode userID blockID l
  | SeriesForRefItem userID blockID id => Some (seriesForRefCacheKey userID blockID id)
  | ExpandedPostingsItem userID blockID lmKey strategy =>
      Some (expandedPostingsCacheKey blake2bSum256 base64Encode userID blockID lmKey strategy)
  | SeriesForPostingsItem userID blockID shard postingsKey =>
      Some (seriesForPostingsCacheKey shardKey userID blockID shard postingsKey)
  | LabelNamesItem userID blockID matchersKey =>
      Some (labelNamesCacheKey blake2bSum256 base64Encode userID blockID matchersKey)
  | LabelValuesItem userID blockID labelName matchersKey =>
      Some (labelValuesCacheKey blake2bSum256 base64Encode userID blockID labelName matchersKey)
  end.

End indexcache.

(** ** pkg/storage/tsdb/config.go *)

Module tsdb.

(** The fields of [TSDBConfig] that [Validate] reads; durations in
    nanoseconds. *)
Record TSDBConfig := {
  BlockRanges : list Z;
  ShipInterval : Z;
  ShipConcurrency : Z;
  HeadCompactionInterval : Z;
  HeadCompactionConcurrency : Z;
  HeadChunksWriteBufferSize : Z;
  StripeSize : Z;
  WALSegmentSizeBytes : Z;
  WALReplayConcurrency : Z;
  DeprecatedMaxTSDBOpeningConcurrencyOnStartup : Z;
  EarlyHeadCompactionMinInMemorySeries : Z;
  EarlyHeadCompactionMinEstimatedSeriesReductionPercentage : Z
}.

Inductive validationError :=
  | errInvalidShipConcurrency
  | errInvalidOpeningConcurrency
  | errInvalidCompactionInterval
  | errInvalidCompactionConcurrency
  | errHeadChunksWriteBufferSize (minSize maxSize : Z)
  | errInvalidStripeSize
  | errEmptyBlockranges
  | errInvalidWALSegmentSizeBytes
  | errInvalidWALReplayConcurrency
  | errEarlyCompactionRequiresActiveSeries
  | errInvalidEarlyHeadCompactionMinSeriesReduction.

Definition Minute : Z := 60000000000.

(** [TSDBConfig.Validate]; [MinWriteBufferSize] and [MaxWriteBufferSize]
    are the constants of Prometheus' [chunks] package, [activeSeriesEnabled]
    is [activeSeriesCfg.Enabled]. The deprecation warning is logging only. *)
Definition Validate (MinWriteBufferSize MaxWriteBufferSize : Z) (cfg : TSDBConfig)
    (activeSeriesEnabled : bool) : option validationError :=
  if (0 <? ShipInterval cfg)%Z && (ShipConcurrency cfg <=? 0)%Z then
    Some errInvalidShipConcurrency
  else if (DeprecatedMaxTSDBOpeningConcurrencyOnStartup cfg <=? 0)%Z then
    Some errInvalidOpeningConcurrency
  else if (HeadCompactionInterval cfg <=? 0)%Z || (15 * Minute <? HeadCompactionInterval cfg)%Z then
    Some errInvalidCompactionInterval
  else if (HeadCompactionConcurrency cfg <=? 0)%Z then
    Some errInvalidCompactionConcurrency
  else if (HeadChunksWriteBufferSize cfg <? MinWriteBufferSize)%Z ||
          (MaxWriteBufferSize <? HeadChunksWriteBufferSize cfg)%Z ||
          negb (Z.rem (HeadChunksWriteBufferSize cfg) 1024 =? 0)%Z then
    Some (errHeadChunksWriteBufferSize MinWriteBufferSize MaxWriteBufferSize)
  else if (StripeSize cfg <=? 1)%Z ||
          negb (Z.land (StripeSize cfg) (StripeSize cfg - 1) =? 0)%Z then
    Some errInvalidStripeSize
  else if length (BlockRanges cfg) =? 0 then
    Some errEmptyBlockranges
  else if (WALSegmentSizeBytes cfg <=? 0)%Z then
    Some errInvalidWALSegmentSizeBytes
  else if (WALReplayConcurrency cfg <? 0)%Z then
    Some errInvalidWALReplayConcurrency
  else if (0 <? EarlyHeadCompactionMinInMemorySeries cfg)%Z && negb activeSeriesEnabled then
    Some errEarlyCompactionRequiresActiveSeries
  else if (EarlyHeadCompactionMinEstimatedSeriesReductionPercentage cfg <? 0)%Z ||
          (100 <? EarlyHeadCompactionMinEstimatedSeriesReductionPercentage cfg)%Z then
    Some errInvalidEarlyHeadCompactionMinSeriesReduction
  else None.

End tsdb.

(** * Proofs *)

(** ** Index arithmetic modulo the ring size *)

Lemma mod_shift (a b n : nat) : n <> 0 -> a = b + n -> a mod n = b mod n.
Proof.
  intros Hn ->. replace (b + n) with (b + 1 * n) by lia.
  apply Nat.Div0.mod_add.
Qed.

Lemma mod_lt (a n : nat) : 0 < n -> a mod n < n.
Proof. intros. apply Nat.mod_upper_bound. lia. Qed.

(** ** Sorted token lists *)

Lemma ascending_tail (x : Token) (l : list Token) :
  ascending (x :: l) = true -> ascending l = true.
Proof. destruct l as [|y l]; simpl; [done|]. intros H. apply andb_prop in H. tauto. Qed.

Lemma ascending_head (x : Token) (l : list Token) :
  ascending (x :: l) = true -> forall y, In y l -> (x < y)%Z.
Proof.
  revert x. induction l as [|y l IH]; intros x H z Hz; [done|].
  simpl in H. apply andb_prop in H as [Hxy Hl]. apply Z.ltb_lt in Hxy.
  destruct Hz as [<-|Hz]; [done|]. specialize (IH y Hl z Hz). lia.
Qed.

Lemma ascending_nth_lt (l : list Token) (i j : nat) :
  ascending l = true -> i < j -> j < length l ->
  (nth i l 0 < nth j l 0)%Z.
Proof.
  revert i j. induction l as [|x l IH]; intros i j H Hij Hj; simpl in Hj; [lia|].
  destruct j as [|j]; [lia|]. destruct i as [|i].
  - simpl. apply (ascending_head x l H). apply nth_In. lia.
  - simpl. apply IH; [eapply ascending_tail; eauto|lia|lia].
Qed.

Lemma ascending_nth_le (l : list Token) (i j : nat) :
  ascending l = true -> i <= j -> j < length l ->
  (nth i l 0 <= nth j l 0)%Z.
Proof.
  intros H Hij Hj. destruct (Nat.eq_dec i j) as [->|Hne]; [lia|].
  pose proof (ascending_nth_lt l i j H ltac:(lia) Hj). lia.
Qed.

Lemma ascending_nth_inj (l : list Token) (i j : nat) :
  ascending l = true -> i < length l -> j < length l ->
  nth i l 0%Z = nth j l 0%Z -> i = j.
Proof.
  intros H Hi Hj Heq. destruct (Nat.lt_trichotomy i j) as [Hlt|[Heq'|Hlt]]; [|done|].
  - pose proof (ascending_nth_lt l i j H Hlt Hj). lia.
  - pose proof (ascending_nth_lt l j i H Hlt Hi). lia.
Qed.

Lemma searchToken_nth (l : list Token) (x : nat) :
  ascending l = true -> x < length l -> searchToken l (nth x l 0%Z) = x.
Proof.
  revert x. induction l as [|a l IH]; intros x H Hx; simpl in Hx; [lia|].
  destruct x as [|x]; simpl.
  - rewrite Z.leb_refl. done.
  - assert (Ha : (a < nth x l 0)%Z) by (apply (ascending_head a l H), nth_In; lia).
    destruct (Z.leb_spec (nth x l 0%Z) a); [lia|].
    f_equal. apply IH; [eapply ascending_tail; eauto|lia].
Qed.

Lemma indexOf_tokenAt (l : list Token) (x : nat) :
  ascending l = true -> x < length l -> indexOf l (tokenAt l x) = Some x.
Proof.
  intros H Hx. unfold indexOf, tokenAt. rewrite searchToken_nth by done.
  apply Nat.ltb_lt in Hx. rewrite Hx, Z.eqb_refl. done.
Qed.

Lemma indexOf_Some (l : list Token) (t : Token) (i : nat) :
  indexOf l t = Some i -> i < length l /\ tokenAt l i = t.
Proof.
  unfold indexOf. destruct (_ <? _) eqn:E1; simpl; [|done].
  destruct (Z.eqb_spec (tokenAt l (searchToken l t)) t); [|done].
  intros [= <-]. apply Nat.ltb_lt in E1. done.
Qed.

Lemma indexOf_In (l : list Token) (t : Token) :
  ascending l = true -> In t l -> exists i, indexOf l t = Some i.
Proof.
  intros H Ht. apply In_nth with (d := 0%Z) in Ht as (x & Hx & <-).
  exists x. apply indexOf_tokenAt; done.
Qed.

Lemma tokensInRange_nth (M : Token) (l : list Token) (x : nat) :
  tokensInRange M l = true -> x < length l ->
  (0 <= nth x l 0 < M)%Z.
Proof.
  intros H Hx. unfold tokensInRange in H. rewrite forallb_forall in H.
  specialize (H (nth x l 0%Z) (nth_In _ _ Hx)).
  apply andb_prop in H as [H1 H2]. apply Z.leb_le in H1. apply Z.ltb_lt in H2. lia.
Qed.

(** ** Circular distance *)

Lemma distance_range (a b M : Token) :
  (0 <= a < M)%Z -> (0 <= b < M)%Z -> (0 <= distance a b M < M)%Z.
Proof. intros. unfold distance. destruct (Z.leb_spec a b); lia. Qed.

Lemma distance_self (a M : Token) : distance a a M = 0%Z.
Proof. unfold distance. rewrite Z.leb_refl. lia. Qed.

Lemma step_index (s d n : nat) :
  s < n -> d < n ->
  ((s + d) mod n = s + d /\ s + d < n) \/ ((s + d) mod n = s + d - n /\ n <= s + d).
Proof.
  intros Hs Hd. destruct (Nat.lt_ge_cases (s + d) n) as [H|H].
  - left. split; [apply Nat.mod_small|]; lia.
  - right. split; [|lia]. rewrite (mod_shift (s + d) (s + d - n) n); [|lia|lia].
    apply Nat.mod_small. lia.
Qed.

Ltac case_leb :=
  repeat match goal with
  | |- context [Z.leb ?a ?b] => destruct (Z.leb_spec a b)
  end.

Section Monotone.
Variables (M : Token) (l : list Token).
Hypotheses (Hasc : ascending l = true) (Hrange : tokensInRange M l = true).

(** Walking clockwise from index [s], the distance from the token at [s]
    grows with the number of steps taken. *)
Lemma distance_monotone (s d1 d2 : nat) :
  s < length l -> d1 <= d2 -> d2 < length l ->
  (distance (tokenAt l s) (tokenAt l ((s + d1) mod length l)) M <=
   distance (tokenAt l s) (tokenAt l ((s + d2) mod length l)) M)%Z.
Proof.
  intros Hs H12 Hd2. set (n := length l) in *. unfold tokenAt, distance.
  pose proof (tokensInRange_nth M l s Hrange Hs) as Rs.
  destruct (step_index s d1 n Hs ltac:(lia)) as [[E1 B1]|[E1 B1]];
  destruct (step_index s d2 n Hs Hd2) as [[E2 B2]|[E2 B2]]; rewrite E1, E2.
  - pose proof (ascending_nth_le l s (s + d1) Hasc ltac:(lia) B1).
    pose proof (ascending_nth_le l (s + d1) (s + d2) Hasc ltac:(lia) B2).
    case_leb; lia.
  - pose proof (ascending_nth_le l s (s + d1) Hasc ltac:(lia) B1).
    pose proof (ascending_nth_lt l (s + d2 - n) s Hasc ltac:(lia) Hs).
    pose proof (tokensInRange_nth M l (s + d1) Hrange B1).
    pose proof (tokensInRange_nth M l (s + d2 - n) Hrange ltac:(lia)).
    case_leb; lia.
  - lia.
  - pose proof (ascending_nth_le l (s + d1 - n) (s + d2 - n) Hasc ltac:(lia) ltac:(lia)).
    pose proof (ascending_nth_lt l (s + d2 - n) s Hasc ltac:(lia) Hs).
    pose proof (ascending_nth_lt l (s + d1 - n) s Hasc ltac:(lia) Hs).
    case_leb; lia.
Qed.
End Monotone.

(** ** Sets of keys kept as duplicate-free lists *)

Lemma nodup_incl_length (l k : list string) :
  NoDup l -> (forall x, x ∈ l -> x ∈ k) -> length l <= length k.
Proof. intros Hl Hincl. apply submseteq_length, NoDup_submseteq; done. Qed.

Lemma nodup_incl_perm (l k : list string) :
  NoDup l -> (forall x, x ∈ l -> x ∈ k) -> length k <= length l -> l ≡ₚ k.
Proof.
  intros Hl Hincl Hlen. apply submseteq_length_Permutation; [|done].
  apply NoDup_submseteq; done.
Qed.

(** [seen] holds exactly the keys [P t] of the first [d] steps of a walk. *)
Definition keysOfSteps (P : nat -> option string) (d : nat) (seen : list string) : Prop :=
  forall k, k ∈ seen <-> exists t, t < d /\ P t = Some k.

Lemma keysOfSteps_repeat P d seen k :
  keysOfSteps P d seen -> P d = Some k -> k ∈ seen -> keysOfSteps P (S d) seen.
Proof.
  unfold keysOfSteps. intros H Hk Hin k'. rewrite H. split.
  - intros (t & ? & ?). exists t. split; [lia|done].
  - intros (t & Ht & Hp). destruct (Nat.eq_dec t d) as [->|]; [|exists t; split; [lia|done]].
    rewrite Hk in Hp. injection Hp as <-. apply H in Hin. done.
Qed.

Lemma keysOfSteps_new P d seen k :
  keysOfSteps P d seen -> P d = Some k -> keysOfSteps P (S d) (k :: seen).
Proof.
  unfold keysOfSteps. intros H Hk k'. rewrite elem_of_cons, H. split.
  - intros [->|(t & ? & ?)]; [exists d; split; [lia|done]|exists t; split; [lia|done]].
  - intros (t & Ht & Hp). destruct (Nat.eq_dec t d) as [->|].
    + left. rewrite Hk in Hp. congruence.
    + right. exists t. split; [lia|done].
Qed.

Lemma keysOfSteps_app P d seen k :
  keysOfSteps P d seen -> P d = Some k -> keysOfSteps P (S d) (seen ++ [k]).
Proof.
  intros H Hk k'. pose proof (keysOfSteps_new P d seen k H Hk k') as E.
  rewrite elem_of_app, list_elem_of_singleton, <- E, elem_of_cons. tauto.
Qed.

Lemma keysOfSteps_one P k : P 0 = Some k -> keysOfSteps P 1 [k].
Proof.
  intros Hk k'. rewrite list_elem_of_singleton. split.
  - intros ->. exists 0. split; [lia|done].
  - intros (t & Ht & Hp). assert (t = 0) as -> by lia. congruence.
Qed.

(** ** The walks *)

Section WalkFacts.
Variables (n R : nat) (inst : nat -> string) (keyOf : string -> option string).
Hypothesis Hn : 0 < n.

Lemma start_walk_spec (i : nat) (ki : string) :
  forall fuel d seen r, NoDup seen -> length seen <= R ->
  keysOfSteps (fun t => key inst keyOf ((i + n - t) mod n)) d seen ->
  start_walk n R inst keyOf i ki fuel d seen = Ok r ->
  r = i \/
  exists d', d <= d' < d + fuel /\ r = ((i + n - d') mod n + 1) mod n /\
    exists l, NoDup l /\ length l <= R /\
      keysOfSteps (fun t => key inst keyOf ((i + n - t) mod n)) d' l.
Proof.
  induction fuel as [|f IH]; intros d seen r Hnd Hlen Hseen Hw; cbn [start_walk] in Hw.
  - injection Hw as <-. by left.
  - destruct (key inst keyOf ((i + n - d) mod n)) as [k|] eqn:Ek; [|discriminate].
    destruct (decide (k = ki)) as [_|_].
    { injection Hw as <-. right. exists d. split; [lia|split; [done|]]. by exists seen. }
    destruct (decide (k ∈ seen)) as [Hin|Hnin].
    + destruct (IH (S d) seen r Hnd Hlen (keysOfSteps_repeat _ _ _ _ Hseen Ek Hin) Hw)
        as [?|(d' & ? & ? & ?)]; [by left|].
      right. exists d'. split; [lia|done].
    + destruct (length seen =? R) eqn:El.
      * injection Hw as <-. right. exists d. split; [lia|split; [done|]]. by exists seen.
      * apply Nat.eqb_neq in El.
        destruct (IH (S d) (k :: seen) r (NoDup_cons_2 _ _ Hnin Hnd) ltac:(simpl; lia)
          (keysOfSteps_new _ _ _ _ Hseen Ek) Hw) as [?|(d' & ? & ? & ?)]; [by left|].
        right. exists d'. split; [lia|done].
Qed.

Lemma last_walk_spec (k0 : nat) :
  forall fuel e seen r, NoDup seen ->
  keysOfSteps (fun t => key inst keyOf ((k0 + t) mod n)) e seen ->
  last_walk n R inst keyOf k0 fuel e seen = Ok r ->
  r = (k0 + n - 1) mod n \/
  exists e', e <= e' < e + fuel /\ r = ((k0 + e') mod n + n - 1) mod n /\
    exists l, NoDup l /\ length l = R /\
      keysOfSteps (fun t => key inst keyOf ((k0 + t) mod n)) e' l /\
      exists k, key inst keyOf ((k0 + e') mod n) = Some k /\ k ∉ l.
Proof.
  induction fuel as [|f IH]; intros e seen r Hnd Hseen Hw; cbn [last_walk] in Hw.
  - injection Hw as <-. by left.
  - destruct (key inst keyOf ((k0 + e) mod n)) as [k|] eqn:Ek; [|discriminate].
    destruct (decide (k ∈ seen)) as [Hin|Hnin].
    + destruct (IH (S e) seen r Hnd (keysOfSteps_repeat _ _ _ _ Hseen Ek Hin) Hw)
        as [?|(e' & ? & ? & ?)]; [by left|].
      right. exists e'. split; [lia|done].
    + destruct (length seen =? R) eqn:El.
      * injection Hw as <-. right. exists e. split; [lia|split; [done|]].
        exists seen. apply Nat.eqb_eq in El. split; [done|split; [done|split; [done|eauto]]].
      * destruct (IH (S e) (k :: seen) r (NoDup_cons_2 _ _ Hnin Hnd)
          (keysOfSteps_new _ _ _ _ Hseen Ek) Hw) as [?|(e' & ? & ? & ?)]; [by left|].
        right. exists e'. split; [lia|done].
Qed.

Hypothesis Hkeys : forall j, j < n -> key inst keyOf j <> None.

Lemma start_walk_total (i : nat) (ki : string) :
  forall fuel d seen, exists r, start_walk n R inst keyOf i ki fuel d seen = Ok r.
Proof.
  induction fuel as [|f IH]; intros d seen; cbn [start_walk]; [eauto|].
  destruct (key inst keyOf ((i + n - d) mod n)) eqn:Ek.
  - destruct (decide _); [eauto|]. destruct (decide _); [apply IH|].
    case_match; [eauto|apply IH].
  - exfalso. apply (Hkeys _ (mod_lt _ _ Hn) Ek).
Qed.

Lemma last_walk_total (k0 : nat) :
  forall fuel e seen, exists r, last_walk n R inst keyOf k0 fuel e seen = Ok r.
Proof.
  induction fuel as [|f IH]; intros e seen; cbn [last_walk]; [eauto|].
  destruct (key inst keyOf ((k0 + e) mod n)) eqn:Ek.
  - destruct (decide _); [apply IH|]. case_match; [eauto|apply IH].
  - exfalso. apply (Hkeys _ (mod_lt _ _ Hn) Ek).
Qed.
End WalkFacts.

(** ** Arc consistency of the walks *)

Section Arc.
Variables (M : Token) (l : list Token) (R : nat)
  (ringInstanceByToken : gmap Z string) (keyOf : string -> option string).
Hypotheses (Hasc : ascending l = true) (Hrange : tokensInRange M l = true)
  (Hn : 0 < length l).

Let n := length l.
Let inst (j : nat) := instanceOf ringInstanceByToken (tokenAt l j).

Hypothesis Hkeys : forall j, j < n -> key inst keyOf j <> None.

Lemma last_walk_lt (k0 fuel e : nat) (seen : list string) (r : nat) :
  last_walk n R inst keyOf k0 fuel e seen = Ok r -> r < n.
Proof.
  revert e seen. induction fuel as [|f IH]; intros e seen Hw; cbn [last_walk] in Hw.
  - injection Hw as <-. apply mod_lt. done.
  - case_match; [|discriminate]. case_match; [eauto|]. case_match; [|eauto].
    injection Hw as <-. apply mod_lt. done.
Qed.

(** The walk back from [i] stops at [s]; the walk forward from [s] then
    gets at least as far as [i]. *)
Lemma arc_walks (i : nat) (ki : string) (s : nat) :
  i < n -> key inst keyOf i = Some ki ->
  1 <= R -> start_walk n R inst keyOf i ki (n - 1) 1 [ki] = Ok s ->
  s < n /\ exists ks, key inst keyOf s = Some ks /\
    forall r, last_walk n R inst keyOf s (n - 1) 1 [ks] = Ok r ->
    (distance (tokenAt l s) (tokenAt l i) M <= distance (tokenAt l s) (tokenAt l r) M)%Z.
Proof.
  intros Hi Hki HR Hs.
  assert (Hn0 : n <> 0) by (subst n; lia).
  assert (Hone : keysOfSteps (fun t => key inst keyOf ((i + n - t) mod n)) 1 [ki]).
  { apply keysOfSteps_one. rewrite Nat.sub_0_r, (mod_shift (i + n) i n), Nat.mod_small;
      [done|lia|done|lia]. }
  destruct (start_walk_spec n R inst keyOf ltac:(subst n; lia) i ki (n - 1) 1 [ki] s
              (NoDup_singleton ki) ltac:(simpl; lia) Hone Hs) as [->|(d' & Hd' & Es & L & HL & HLen & HLk)].
  - split; [done|]. destruct (key inst keyOf i) as [ks|] eqn:Eks; [|congruence].
    exists ks. split; [done|]. intros r Hr.
    pose proof (last_walk_lt _ _ _ _ _ Hr) as Hrn.
    rewrite distance_self. apply distance_range; apply tokensInRange_nth; done.
  - assert (Es' : s = (i + n + 1 - d') mod n).
    { rewrite Es, Nat.Div0.add_mod_idemp_l. f_equal. lia. }
    assert (Hsn : s < n) by (rewrite Es'; apply mod_lt; lia).
    split; [done|].
    destruct (key inst keyOf s) as [ks|] eqn:Eks; [|exfalso; eapply Hkeys; eauto].
    exists ks. split; [done|]. intros r Hr.
    (* the first [d'] steps forward from [s] retrace the walk back from [i] *)
    assert (Hback : forall t, t < d' ->
              (s + t) mod n = (i + n - (d' - 1 - t)) mod n).
    { intros t Ht. rewrite Es', Nat.Div0.add_mod_idemp_l. f_equal. lia. }
    assert (Hi' : i = (s + (d' - 1)) mod n).
    { rewrite Hback by lia. rewrite Nat.sub_diag, Nat.sub_0_r.
      rewrite (mod_shift (i + n) i n), Nat.mod_small; [done|lia|done|lia]. }
    assert (Hfirst : keysOfSteps (fun t => key inst keyOf ((s + t) mod n)) 1 [ks]).
    { apply keysOfSteps_one. rewrite Nat.add_0_r, Nat.mod_small; done. }
    rewrite Hi'.
    destruct (last_walk_spec n R inst keyOf ltac:(subst n; lia) s (n - 1) 1 [ks] r
                (NoDup_singleton ks) Hfirst Hr)
      as [->|(e' & He' & Er & L' & HL' & HL'len & HL'k & k & Ek & Hk)].
    + replace (s + n - 1) with (s + (n - 1)) by lia.
      apply distance_monotone; try done; subst n; lia.
    + assert (He'd : d' <= e').
      { destruct (Nat.le_gt_cases d' e') as [|Hlt]; [done|exfalso].
        (* the key met at [e'] and those of [L'] all lie on the arc [s .. i] *)
        assert (length (k :: L') <= length L); [|simpl in *; lia].
        apply nodup_incl_length; [by apply NoDup_cons_2|]. intros k' Hk'.
        apply HLk. apply elem_of_cons in Hk' as [->|Hk'].
        - exists (d' - 1 - e'). split; [lia|]. rewrite <- Hback by lia. done.
        - apply HL'k in Hk' as (t & Ht & Hkt).
          exists (d' - 1 - t). split; [lia|]. rewrite <- Hback by lia. done. }
      assert (Er' : r = (s + (e' - 1)) mod n).
      { rewrite Er. replace ((s + e') mod n + n - 1) with ((s + e') mod n + (n - 1)) by lia.
        rewrite Nat.Div0.add_mod_idemp_l. apply mod_shift; [done|lia]. }
      rewrite Er'. apply distance_monotone; try done; subst n; lia.
Qed.
End Arc.

(** ** From the walks to the strategy operations *)

Lemma nonempty_match {A : Type} (l : list Token) (a b : A) :
  l <> [] -> match l with [] => a | _ :: _ => b end = b.
Proof. destruct l; done. Qed.

Lemma replicationFactor_pos (s : Strategy) :
  1 <= replicationFactor s -> (replicationFactor s =? 0) = false.
Proof. intros. apply Nat.eqb_neq. lia. Qed.

(** The key a strategy tracks exists for every token of the ring. *)
Definition keysTotal (s : Strategy) (ringInstanceByToken : gmap Z string)
    (l : list Token) : Prop :=
  forall j, j < length l ->
  key (fun j => instanceOf ringInstanceByToken (tokenAt l j)) (strategyKey s) j <> None.

Lemma keysTotal_simple (R : nat) ringInstanceByToken l :
  keysTotal (SimpleReplicationStrategy R) ringInstanceByToken l.
Proof. intros j _. unfold key. simpl. done. Qed.

Lemma keysTotal_zoneAware (R : nat) zoneByInstance ringInstanceByToken l :
  zonesComplete zoneByInstance ringInstanceByToken l = true ->
  keysTotal (ZoneAwareReplicationStrategy R zoneByInstance) ringInstanceByToken l.
Proof.
  intros H j Hj. unfold zonesComplete in H. rewrite forallb_forall in H.
  specialize (H _ (nth_In l 0%Z Hj)). apply bool_decide_eq_true in H.
  unfold key, tokenAt. simpl. destruct H as [z Hz]. congruence.
Qed.

Lemma strategy_arc (s : Strategy) (M : Token) (l : list Token)
    (ringInstanceByToken : gmap Z string) (T : Token) :
  ascending l = true -> tokensInRange M l = true ->
  1 <= replicationFactor s -> T ∈ l -> keysTotal s ringInstanceByToken l ->
  exists st lt,
    getReplicaStart s T l ringInstanceByToken = Ok st /\
    getLastReplicaToken s st l ringInstanceByToken = Ok lt /\
    (distance st T M <= distance st lt M)%Z.
Proof.
  intros Hasc Hrange HR HT Hkeys.
  apply list_elem_of_In in HT.
  assert (Hne : l <> []) by (intros ->; done).
  assert (Hn : 0 < length l) by (destruct l; simpl; [done|lia]).
  destruct (indexOf_In l T Hasc HT) as [i Hi].
  destruct (indexOf_Some l T i Hi) as [Hin HTi].
  set (inst := fun j => instanceOf ringInstanceByToken (tokenAt l j)).
  destruct (key inst (strategyKey s) i) as [ki|] eqn:Eki;
    [|exfalso; apply (Hkeys i Hin Eki)].
  destruct (start_walk_total (length l) (replicationFactor s) inst (strategyKey s) Hn
              Hkeys i ki (length l - 1) 1 [ki]) as [sidx Hs].
  destruct (arc_walks M l (replicationFactor s) ringInstanceByToken (strategyKey s)
              Hasc Hrange Hn Hkeys i ki sidx Hin Eki HR Hs) as (Hsn & ks & Eks & Hdist).
  destruct (last_walk_total (length l) (replicationFactor s) inst (strategyKey s) Hn
              Hkeys sidx (length l - 1) 1 [ks]) as [r Hr].
  exists (tokenAt l sidx), (tokenAt l r). split; [|split].
  - unfold getReplicaStart. rewrite replicationFactor_pos, nonempty_match by done.
    rewrite Hi. fold inst. rewrite Eki, Hs. done.
  - unfold getLastReplicaToken. rewrite replicationFactor_pos, nonempty_match by done.
    rewrite indexOf_tokenAt by done. rewrite Eks. fold inst. rewrite Hr. done.
  - rewrite <- HTi. apply Hdist. done.
Qed.

(** ** The replica-set walk *)

Lemma Forall2_keys_elem {B : Type} (f : string -> option B) (P : string -> Prop)
    (xs : list string) (ks : list B) :
  Forall2 (fun a k => f a = Some k /\ P a) xs ks ->
  (forall a, a ∈ xs -> P a /\ exists k, k ∈ ks /\ f a = Some k) /\
  (forall k, k ∈ ks -> exists a, f a = Some k /\ P a).
Proof.
  induction 1 as [|a k xs ks [Hak Ha] _ [IH1 IH2]]; split; intros x Hx;
    try (apply not_elem_of_nil in Hx; done); apply elem_of_cons in Hx as [->|Hx].
  - split; [done|]. exists k. split; [left|done].
  - destruct (IH1 x Hx) as [HP (k' & Hk' & Hfk')]. split; [done|].
    exists k'. split; [right|]; done.
  - eauto.
  - eauto.
Qed.

Lemma Forall2_keys_nodup {B : Type} (f : string -> option B) (P : string -> Prop)
    (xs : list string) (ks : list B) :
  Forall2 (fun a k => f a = Some k /\ P a) xs ks -> NoDup ks -> NoDup xs.
Proof.
  induction 1 as [|a k xs ks [Hak _] Hrest IH]; intros Hnd; [constructor|].
  apply NoDup_cons in Hnd as [Hk Hnd]. constructor; [|auto].
  intros Ha. apply Hk. apply Forall2_keys_elem in Hrest as [Hxs _].
  destruct (Hxs a Ha) as [_ (k' & Hk' & Hak')]. congruence.
Qed.

Lemma Forall2_keys_map {B : Type} (f : string -> option B) (P : string -> Prop)
    (xs : list string) (ks : list B) :
  Forall2 (fun a k => f a = Some k /\ P a) xs ks -> map f xs = map Some ks.
Proof. induction 1 as [|a k xs ks [Hak _] _ IH]; simpl; [done|]. rewrite Hak, IH. done. Qed.

Section SetWalkFacts.
Variables (n R : nat) (inst : nat -> string) (keyOf : string -> option string).
Hypothesis Hn : 0 < n.

Lemma set_walk_ok (notEnough : ringError) (i0 : nat) :
  forall fuel e seen acc res, NoDup seen ->
  Forall2 (fun a k => keyOf a = Some k /\ exists j, j < n /\ inst j = a) acc seen ->
  set_walk n R inst keyOf notEnough i0 fuel e seen acc = Ok res ->
  exists seen', NoDup seen' /\ length seen' = R /\
    Forall2 (fun a k => keyOf a = Some k /\ exists j, j < n /\ inst j = a) res seen'.
Proof.
  induction fuel as [|f IH]; intros e seen acc res Hnd Hrel Hw; cbn [set_walk] in Hw;
    [discriminate|].
  destruct (key inst keyOf ((i0 + e) mod n)) as [k|] eqn:Ek; [|discriminate].
  destruct (decide (k ∈ seen)) as [Hin|Hnin]; [eauto|].
  assert (Hnd' : NoDup (seen ++ [k])).
  { apply NoDup_app. split; [done|]. split; [|apply NoDup_singleton].
    intros x Hx Hx'. apply list_elem_of_singleton in Hx'. subst. done. }
  assert (Hrel' : Forall2 (fun a k => keyOf a = Some k /\ exists j, j < n /\ inst j = a)
                    (acc ++ [inst ((i0 + e) mod n)]) (seen ++ [k])).
  { apply Forall2_app; [done|]. constructor; [|constructor].
    split; [done|]. exists ((i0 + e) mod n). split; [apply mod_lt; done|done]. }
  destruct (length (seen ++ [k]) =? R) eqn:El.
  - injection Hw as <-. exists (seen ++ [k]). apply Nat.eqb_eq in El. done.
  - eapply IH; eauto.
Qed.

Hypothesis Hkeys : forall j, j < n -> key inst keyOf j <> None.

Lemma set_walk_err (notEnough : ringError) (i0 : nat) :
  forall fuel e seen acc err, e + fuel = n -> NoDup seen -> length seen < R ->
  keysOfSteps (fun t => key inst keyOf ((i0 + t) mod n)) e seen ->
  set_walk n R inst keyOf notEnough i0 fuel e seen acc = Err err ->
  err = notEnough /\ exists seen', NoDup seen' /\ length seen' < R /\
    keysOfSteps (fun t => key inst keyOf ((i0 + t) mod n)) n seen'.
Proof.
  induction fuel as [|f IH]; intros e seen acc err Hef Hnd Hlen Hseen Hw;
    cbn [set_walk] in Hw.
  - injection Hw as <-. split; [done|]. exists seen. rewrite Nat.add_0_r in Hef. subst e. done.
  - destruct (key inst keyOf ((i0 + e) mod n)) as [k|] eqn:Ek;
      [|exfalso; apply (Hkeys _ (mod_lt _ _ Hn) Ek)].
    destruct (decide (k ∈ seen)) as [Hin|Hnin].
    + apply (IH (S e) seen acc err); [lia|done|done|apply (keysOfSteps_repeat _ _ _ k); done|exact Hw].
    + destruct (length (seen ++ [k]) =? R) eqn:El; [discriminate|].
      apply Nat.eqb_neq in El. rewrite length_app in El. simpl in El.
      apply (IH (S e) (seen ++ [k]) (acc ++ [inst ((i0 + e) mod n)]) err);
        [lia| | |apply (keysOfSteps_app _ _ _ k); done|exact Hw].
      * apply NoDup_app. split; [done|]. split; [|apply NoDup_singleton].
        intros x Hx Hx'. apply list_elem_of_singleton in Hx'. subst. done.
      * rewrite length_app. simpl. lia.
Qed.

Lemma steps_cover (i0 : nat) (k : string) :
  i0 < n ->
  (exists t, t < n /\ key inst keyOf ((i0 + t) mod n) = Some k) <->
  (exists j, j < n /\ key inst keyOf j = Some k).
Proof.
  intros Hi0. split.
  - intros (t & _ & Ht). exists ((i0 + t) mod n). split; [apply mod_lt; done|done].
  - intros (j & Hj & Hk). exists (if decide (i0 <= j) then j - i0 else j + n - i0).
    destruct (decide (i0 <= j)).
    + split; [lia|]. rewrite Nat.mod_small by lia. replace (i0 + (j - i0)) with j by lia. done.
    + split; [lia|]. rewrite (mod_shift _ j n); [|lia|lia]. rewrite Nat.mod_small by lia. done.
Qed.

Lemma allKeys_elem (k : string) :
  k ∈ omap (key inst keyOf) (seq 0 n) <-> exists j, j < n /\ key inst keyOf j = Some k.
Proof.
  rewrite list_elem_of_omap. setoid_rewrite elem_of_seq. split.
  - intros (j & Hj & Hk). exists j. split; [lia|done].
  - intros (j & Hj & Hk). exists j. split; [lia|done].
Qed.

(** The walk fails for want of keys exactly when the ring holds fewer than
    [R] distinct keys; otherwise it returns a replica set. *)
Lemma set_walk_count (notEnough : ringError) (i0 : nat) :
  1 <= R -> i0 < n ->
  (set_walk n R inst keyOf notEnough i0 n 0 [] [] = Err notEnough <->
   length (remove_dups (omap (key inst keyOf) (seq 0 n))) < R) /\
  ((exists res, set_walk n R inst keyOf notEnough i0 n 0 [] [] = Ok res) \/
   set_walk n R inst keyOf notEnough i0 n 0 [] [] = Err notEnough).
Proof.
  intros HR Hi0.
  assert (Hstart : keysOfSteps (fun t => key inst keyOf ((i0 + t) mod n)) 0 []).
  { intros k. split; [intros Hk; apply not_elem_of_nil in Hk; done|intros (t & Ht & _); lia]. }
  assert (Herr : forall err, set_walk n R inst keyOf notEnough i0 n 0 [] [] = Err err ->
            err = notEnough /\ length (remove_dups (omap (key inst keyOf) (seq 0 n))) < R).
  { intros err Hw.
    destruct (set_walk_err notEnough i0 n 0 [] [] err ltac:(lia) ltac:(constructor)
                ltac:(simpl; lia) Hstart Hw) as [-> (seen' & Hnd & Hlen & Hseen)].
    split; [done|]. enough (remove_dups (omap (key inst keyOf) (seq 0 n)) ≡ₚ seen') as ->; [done|].
    apply NoDup_Permutation; [apply NoDup_remove_dups|done|].
    intros k. rewrite elem_of_remove_dups, allKeys_elem. unfold keysOfSteps in Hseen.
    rewrite Hseen. cbv beta. symmetry. apply steps_cover. done. }
  split.
  - split; [intros Hw; apply (Herr _ Hw)|]. intros Hlt.
    destruct (set_walk n R inst keyOf notEnough i0 n 0 [] []) as [res|err] eqn:Hw.
    + exfalso. destruct (set_walk_ok notEnough i0 n 0 [] [] res ltac:(constructor)
                           ltac:(constructor) Hw) as (seen' & Hnd & Hlen & Hrel).
      assert (length seen' <= length (remove_dups (omap (key inst keyOf) (seq 0 n)))); [|lia].
      apply nodup_incl_length; [done|]. intros k Hk.
      apply Forall2_keys_elem in Hrel as [_ Hks]. destruct (Hks k Hk) as (a & Hak & j & Hj & Ha).
      subst a.
      rewrite elem_of_remove_dups, allKeys_elem. exists j. done.
    + destruct (Herr err eq_refl) as [-> _]. done.
  - destruct (set_walk n R inst keyOf notEnough i0 n 0 [] []) as [res|err] eqn:Hw; [eauto|].
    right. destruct (Herr err eq_refl) as [-> _]. done.
Qed.
End SetWalkFacts.

(** ** [getReplicaSet] *)

Lemma searchToken_le (l : list Token) (t : Token) : searchToken l t <= length l.
Proof. induction l as [|x l IH]; simpl; [lia|]. destruct (t <=? x)%Z; lia. Qed.

Lemma successorIndex_lt (l : list Token) (t : Token) :
  l <> [] -> successorIndex l t < length l.
Proof.
  intros Hne. unfold successorIndex. pose proof (searchToken_le l t).
  assert (0 < length l) by (destruct l; simpl; [done|lia]).
  destruct (Nat.eqb_spec (searchToken l t) (length l)); lia.
Qed.

Lemma tokenAt_elem (l : list Token) (j : nat) : j < length l -> tokenAt l j ∈ l.
Proof. intros Hj. apply list_elem_of_In, nth_In. done. Qed.

Lemma omap_seq_tokenAt (g : Token -> option string) (l : list Token) :
  omap (fun j => g (tokenAt l j)) (seq 0 (length l)) = omap g l.
Proof.
  unfold tokenAt. enough (H : forall pre,
    omap (fun j => g (nth j (pre ++ l) 0%Z)) (seq (length pre) (length l)) = omap g l)
    by apply (H []).
  induction l as [|x l IH]; intros pre; [done|]. simpl.
  rewrite nth_middle. specialize (IH (pre ++ [x])).
  rewrite <- app_assoc, length_app in IH. simpl in IH. rewrite Nat.add_1_r in IH.
  destruct (g x); [f_equal|]; exact IH.
Qed.

Lemma omap_Some_map (f : Token -> string) (l : list Token) :
  omap (fun t => Some (f t)) l = map f l.
Proof. induction l as [|x l IH]; simpl; [done|]. f_equal. Qed.

Lemma getReplicaSet_ok (s : Strategy) (T : Token) (l : list Token)
    (ringInstanceByToken : gmap Z string) (res : list string) :
  getReplicaSet s T l ringInstanceByToken = Ok res ->
  exists ks, NoDup ks /\ length ks = replicationFactor s /\
    Forall2 (fun a k => strategyKey s a = Some k /\
                        exists t, t ∈ l /\ instanceOf ringInstanceByToken t = a) res ks.
Proof.
  unfold getReplicaSet. destruct (replicationFactor s =? 0); [discriminate|].
  destruct l as [|t0 l'] eqn:El; [discriminate|]. rewrite <- El. intros Hw.
  assert (Hn : 0 < length l) by (rewrite El; simpl; lia).
  destruct (set_walk_ok _ _ _ _ Hn _ _ _ _ [] [] res ltac:(constructor) ltac:(constructor) Hw)
    as (ks & Hnd & Hlen & Hrel).
  exists ks. split; [done|]. split; [done|].
  eapply Forall2_impl; [exact Hrel|]. intros a k [Hak (j & Hj & <-)].
  split; [done|]. exists (tokenAt l j). split; [apply tokenAt_elem|]; done.
Qed.

Lemma getReplicaSet_count (s : Strategy) (T : Token) (l : list Token)
    (ringInstanceByToken : gmap Z string) :
  l <> [] -> 1 <= replicationFactor s -> keysTotal s ringInstanceByToken l ->
  (getReplicaSet s T l ringInstanceByToken = Err (notEnoughError s) <->
   length (remove_dups (omap (fun t => strategyKey s (instanceOf ringInstanceByToken t)) l))
     < replicationFactor s) /\
  ((exists res, getReplicaSet s T l ringInstanceByToken = Ok res) \/
   getReplicaSet s T l ringInstanceByToken = Err (notEnoughError s)).
Proof.
  intros Hne HR Hkeys.
  assert (Hn : 0 < length l) by (destruct l; simpl; [done|lia]).
  unfold getReplicaSet. rewrite replicationFactor_pos, nonempty_match by done.
  rewrite <- omap_seq_tokenAt.
  apply (set_walk_count _ _ _ _ Hn Hkeys); [done|]. apply successorIndex_lt. done.
Qed.

(** ** Rings holding the three fixture instances *)

Lemma ringInstances_elem (ringInstanceByToken : gmap Z string) (l : list Token) (a : string) :
  a ∈ ringInstances ringInstanceByToken l <->
  exists t, t ∈ l /\ instanceOf ringInstanceByToken t = a.
Proof.
  unfold ringInstances. rewrite elem_of_remove_dups, list_elem_of_In, in_map_iff.
  setoid_rewrite list_elem_of_In. firstorder.
Qed.

Lemma fixture_zones (a : string) :
  a ∈ fixtureInstances -> is_Some (fixtureZoneByInstance !! a).
Proof.
  intros Ha. apply list_elem_of_In in Ha. simpl in Ha.
  destruct Ha as [<-|[<-|[<-|[]]]]; vm_compute; eauto.
Qed.

(** On any ring whose instances are exactly the three fixture instances,
    each in its own zone, both strategies with [R = 3] return the three
    instances, for every query token. *)
Lemma replicaSet_fixture_like (s : Strategy) (T : Token) (l : list Token)
    (ringInstanceByToken : gmap Z string) :
  s = simple3 \/ s = zoneAware3 ->
  ringInstances ringInstanceByToken l ≡ₚ fixtureInstances ->
  exists res, getReplicaSet s T l ringInstanceByToken = Ok res /\ res ≡ₚ fixtureInstances.
Proof.
  intros Hs Hperm.
  assert (Hmem : forall a, a ∈ ringInstances ringInstanceByToken l <-> a ∈ fixtureInstances)
    by (intros a; rewrite Hperm; done).
  assert (Hne : l <> []).
  { intros ->. apply Permutation_length in Hperm. vm_compute in Hperm. discriminate. }
  assert (HR : 1 <= replicationFactor s) by (destruct Hs as [->| ->]; simpl; lia).
  assert (Hkeys : keysTotal s ringInstanceByToken l).
  { destruct Hs as [->| ->]; [apply keysTotal_simple|].
    intros j Hj. unfold key. simpl.
    assert (Ha : instanceOf ringInstanceByToken (tokenAt l j) ∈ fixtureInstances).
    { apply Hmem, ringInstances_elem. exists (tokenAt l j). split; [apply tokenAt_elem|]; done. }
    destruct (fixture_zones _ Ha) as [z Hz]. unfold zoneAware3. simpl. congruence. }
  assert (Hcount : 3 <= length (remove_dups
            (omap (fun t => strategyKey s (instanceOf ringInstanceByToken t)) l))).
  { destruct Hs as [->| ->].
    - simpl. rewrite omap_Some_map. fold (ringInstances ringInstanceByToken l).
      rewrite Hperm. done.
    - change 3 with (length ["zone-0"; "zone-1"; "zone-2"]).
      apply nodup_incl_length; [vm_compute; repeat constructor; set_solver|].
      intros z Hz. rewrite elem_of_remove_dups, list_elem_of_omap.
      assert (Hz' : exists a, a ∈ fixtureInstances /\ fixtureZoneByInstance !! a = Some z).
      { apply list_elem_of_In in Hz. simpl in Hz.
        destruct Hz as [<-|[<-|[<-|[]]]];
          [exists "instance-0"|exists "instance-1"|exists "instance-2"];
          (split; [apply list_elem_of_In; simpl; tauto|vm_compute; reflexivity]). }
      destruct Hz' as (a & Ha & Haz). apply Hmem, ringInstances_elem in Ha as (t & Ht & <-).
      exists t. split; done. }
  assert (HR3 : replicationFactor s = 3) by (destruct Hs as [->| ->]; reflexivity).
  destruct (getReplicaSet_count s T l ringInstanceByToken Hne HR Hkeys)
    as [Hiff [[res Hres]|Herr]].
  2: { apply Hiff in Herr. lia. }
  exists res. split; [done|].
  destruct (getReplicaSet_ok s T l ringInstanceByToken res Hres) as (ks & Hnd & Hlen & Hrel).
  apply nodup_incl_perm.
  - exact (Forall2_keys_nodup _ _ _ _ Hrel Hnd).
  - intros a Ha. apply Forall2_keys_elem in Hrel as [Hres' _].
    destruct (Hres' a Ha) as [Hal _]. apply Hmem, ringInstances_elem. done.
  - apply Forall2_length in Hrel. rewrite Hrel, Hlen, HR3. done.
Qed.

(** ** The walks read the ring only at indices below [n] *)

Section WalkCongruence.
Variables (n R : nat) (inst1 inst2 : nat -> string) (keyOf : string -> option string).
Hypothesis Hn : 0 < n.
Hypothesis Hagree : forall j, j < n -> inst1 j = inst2 j.

Lemma key_mod_agree (x : nat) : key inst1 keyOf (x mod n) = key inst2 keyOf (x mod n).
Proof. unfold key. rewrite Hagree; [done|]. apply mod_lt. done. Qed.

Lemma set_walk_agree notEnough i0 fuel e seen acc :
  set_walk n R inst1 keyOf notEnough i0 fuel e seen acc =
  set_walk n R inst2 keyOf notEnough i0 fuel e seen acc.
Proof.
  revert e seen acc. induction fuel as [|f IH]; intros e seen acc; [done|].
  cbn [set_walk]. rewrite key_mod_agree.
  destruct (key inst2 keyOf ((i0 + e) mod n)) as [k|]; [|done].
  rewrite Hagree by (apply mod_lt; done).
  destruct (decide (k ∈ seen)); [apply IH|].
  destruct (length (seen ++ [k]) =? R); [done|apply IH].
Qed.

Lemma start_walk_agree i ki fuel d seen :
  start_walk n R inst1 keyOf i ki fuel d seen = start_walk n R inst2 keyOf i ki fuel d seen.
Proof.
  revert d seen. induction fuel as [|f IH]; intros d seen; [done|].
  cbn [start_walk]. rewrite key_mod_agree.
  destruct (key inst2 keyOf ((i + n - d) mod n)) as [k|]; [|done].
  destruct (decide (k = ki)); [done|].
  destruct (decide (k ∈ seen)); [apply IH|].
  destruct (length seen =? R); [done|apply IH].
Qed.

Lemma last_walk_agree k0 fuel e seen :
  last_walk n R inst1 keyOf k0 fuel e seen = last_walk n R inst2 keyOf k0 fuel e seen.
Proof.
  revert e seen. induction fuel as [|f IH]; intros e seen; [done|].
  cbn [last_walk]. rewrite key_mod_agree.
  destruct (key inst2 keyOf ((k0 + e) mod n)) as [k|]; [|done].
  destruct (decide (k ∈ seen)); [apply IH|].
  destruct (length seen =? R); [done|apply IH].
Qed.
End WalkCongruence.

(** ** Locating ring tokens *)

Lemma ring_index_of (l : list Token) (t : Token) :
  ascending l = true -> t ∈ l ->
  exists i, indexOf l t = Some i /\ i < length l /\ tokenAt l i = t.
Proof.
  intros Hasc Ht. apply list_elem_of_In in Ht.
  destruct (indexOf_In l t Hasc Ht) as [i Ei].
  destruct (indexOf_Some _ _ _ Ei) as [Hi Ti]. eauto.
Qed.

Lemma ring_index_order (l : list Token) (a b : nat) :
  ascending l = true -> a < length l -> b < length l ->
  (tokenAt l a < tokenAt l b)%Z -> a < b.
Proof.
  intros Hasc Ha Hb Hab. destruct (Nat.lt_ge_cases a b) as [|Hba]; [done|].
  pose proof (ascending_nth_le l b a Hasc Hba Ha). unfold tokenAt in Hab. lia.
Qed.

(** * The claims *)

(** C1 (arc consistency): on a well-formed ring (strictly ascending tokens in
    [[0, M)], every instance with a zone entry) and for [R >= 1], for every
    token [T] of the ring and both the simple and the zone-aware strategy,
    [getReplicaStart T] and [getLastReplicaToken] of it succeed and
    [distance(replicaStart(T), lastReplicaToken(replicaStart(T)), M) >=
    distance(replicaStart(T), T, M)]. *)
Theorem arc_consistency (M : Token) (l : list Token)
    (ringInstanceByToken : gmap Z string) (zoneByInstance : gmap string string)
    (R : nat) (T : Token) :
  ascending l = true -> tokensInRange M l = true ->
  zonesComplete zoneByInstance ringInstanceByToken l = true ->
  1 <= R -> T ∈ l ->
  forall s, s = SimpleReplicationStrategy R \/
            s = ZoneAwareReplicationStrategy R zoneByInstance ->
  exists st lt,
    getReplicaStart s T l ringInstanceByToken = Ok st /\
    getLastReplicaToken s st l ringInstanceByToken = Ok lt /\
    (distance st T M <= distance st lt M)%Z.
Proof.
  intros Hasc Hrange Hzones HR HT s [->| ->].
  - apply strategy_arc; [done..|apply keysTotal_simple].
  - apply strategy_arc; [done..|apply keysTotal_zoneAware; done].
Qed.

Lemma arc_consistency_witness :
  ascending fixtureTokens = true /\
  tokensInRange maxTokenValue fixtureTokens = true /\
  zonesComplete fixtureZoneByInstance fixtureInstanceByToken fixtureTokens = true /\
  exists st lt,
    getReplicaStart zoneAware3 194 fixtureTokens fixtureInstanceByToken = Ok st /\
    getLastReplicaToken zoneAware3 st fixtureTokens fixtureInstanceByToken = Ok lt /\
    (distance st 194 maxTokenValue <= distance st lt maxTokenValue)%Z.
Proof.
  split; [reflexivity|]. split; [reflexivity|]. split; [vm_compute; reflexivity|].
  apply (arc_consistency maxTokenValue fixtureTokens fixtureInstanceByToken
           fixtureZoneByInstance 3 194).
  - reflexivity.
  - reflexivity.
  - vm_compute; reflexivity.
  - lia.
  - apply list_elem_of_In. simpl. tauto.
  - right. reflexivity.
Defined.

(** C8 (token distance): for tokens [a], [b] in [[0, M)], [distance a b M]
    is [b - a] when [b >= a] and [(M - a) + b] otherwise; [distance a a M = 0]
    and every distance lies in [[0, M)]. *)
Theorem distance_spec (a b M : Token) :
  (0 <= a < M)%Z -> (0 <= b < M)%Z ->
  ((a <= b)%Z -> distance a b M = (b - a)%Z) /\
  ((b < a)%Z -> distance a b M = (M - a + b)%Z) /\
  distance a a M = 0%Z /\
  (0 <= distance a b M < M)%Z.
Proof.
  intros Ha Hb. split; [|split; [|split]].
  - intros Hab. unfold distance. case_leb; lia.
  - intros Hba. unfold distance. case_leb; lia.
  - apply distance_self.
  - apply distance_range; done.
Qed.

Lemma distance_spec_witness :
  (0 <= 902 < maxTokenValue)%Z /\ (0 <= 48 < maxTokenValue)%Z /\
  distance 902 48 maxTokenValue = (maxTokenValue - 902 + 48)%Z.
Proof.
  assert (Ha : (0 <= 902 < maxTokenValue)%Z) by (unfold maxTokenValue; lia).
  assert (Hb : (0 <= 48 < maxTokenValue)%Z) by (unfold maxTokenValue; lia).
  split; [exact Ha|]. split; [exact Hb|].
  apply (distance_spec 902 48 maxTokenValue Ha Hb). lia.
Defined.

(** C3, as stated: every token [T] absent from the ring makes
    [getReplicaStart] fail with [TokenNotOnRing].  An empty ring fails with
    [EmptyRing] instead, and a replication factor of 0 with
    [InvalidReplicationFactor]. *)
Lemma replicaStart_not_on_ring_counterexample :
  ~ (forall s T l ringInstanceByToken, ~ T ∈ l ->
       getReplicaStart s T l ringInstanceByToken = Err TokenNotOnRing) /\
  getReplicaStart simple3 50 [] ∅ = Err EmptyRing /\
  getReplicaStart (SimpleReplicationStrategy 0) 50 fixtureTokens fixtureInstanceByToken
    = Err InvalidReplicationFactor.
Proof.
  split; [|split; reflexivity].
  intros H. specialize (H simple3 50%Z [] ∅ ltac:(apply not_elem_of_nil)).
  vm_compute in H. discriminate.
Qed.

(** C3 (amended): on a non-empty ring and with [R >= 1], every token [T]
    that is not in the sorted tokens makes [getReplicaStart] fail with
    [TokenNotOnRing] (it returns no token). *)
Theorem replicaStart_not_on_ring (s : Strategy) (T : Token) (l : list Token)
    (ringInstanceByToken : gmap Z string) :
  l <> [] -> 1 <= replicationFactor s -> T ∉ l ->
  getReplicaStart s T l ringInstanceByToken = Err TokenNotOnRing.
Proof.
  intros Hne HR HT. unfold getReplicaStart.
  rewrite replicationFactor_pos, nonempty_match by done.
  destruct (indexOf l T) as [i|] eqn:Ei; [|done].
  exfalso. apply HT. destruct (indexOf_Some l T i Ei) as [Hi <-].
  apply list_elem_of_In, nth_In. done.
Qed.

Lemma replicaStart_not_on_ring_witness :
  fixtureTokens <> [] /\ 1 <= replicationFactor simple3 /\ (50%Z ∉ fixtureTokens) /\
  getReplicaStart simple3 50 fixtureTokens fixtureInstanceByToken = Err TokenNotOnRing.
Proof.
  assert (Hne : fixtureTokens <> []) by discriminate.
  assert (HR : 1 <= replicationFactor simple3) by (simpl; lia).
  assert (HT : 50%Z ∉ fixtureTokens) by (rewrite list_elem_of_In; simpl; lia).
  split; [exact Hne|]. split; [exact HR|]. split; [exact HT|].
  apply replicaStart_not_on_ring; assumption.
Defined.

(** C6 (replica-set size and distinctness): whenever [getReplicaSet]
    returns a collection, it holds exactly [R] instances, pairwise distinct;
    for the zone-aware strategy their zones are pairwise distinct too. *)
Theorem replicaSet_size_distinct (s : Strategy) (T : Token) (l : list Token)
    (ringInstanceByToken : gmap Z string) (res : list string) :
  getReplicaSet s T l ringInstanceByToken = Ok res ->
  length res = replicationFactor s /\ NoDup res /\
  (forall R zoneByInstance, s = ZoneAwareReplicationStrategy R zoneByInstance ->
   exists zones, map (fun a => zoneByInstance !! a) res = map Some zones /\ NoDup zones).
Proof.
  intros Hw. destruct (getReplicaSet_ok s T l ringInstanceByToken res Hw)
    as (ks & Hnd & Hlen & Hrel).
  split; [rewrite <- Hlen; eapply Forall2_length; exact Hrel|].
  split; [exact (Forall2_keys_nodup _ _ _ _ Hrel Hnd)|].
  intros R zoneByInstance ->. exists ks. split; [|done].
  apply (Forall2_keys_map _ _ _ _ Hrel).
Qed.

Lemma replicaSet_size_distinct_witness :
  getReplicaSet zoneAware3 194 fixtureTokens fixtureInstanceByToken
    = Ok ["instance-0"; "instance-1"; "instance-2"] /\
  length ["instance-0"; "instance-1"; "instance-2"] = 3 /\
  NoDup ["instance-0"; "instance-1"; "instance-2"].
Proof.
  assert (Hw : getReplicaSet zoneAware3 194 fixtureTokens fixtureInstanceByToken
                 = Ok ["instance-0"; "instance-1"; "instance-2"]) by (vm_compute; reflexivity).
  destruct (replicaSet_size_distinct _ _ _ _ _ Hw) as (Hlen & Hnd & _).
  split; [exact Hw|]. split; [exact Hlen|exact Hnd].
Defined.

(** C7, as stated: [getReplicaSet] fails with [NotEnoughInstances] (simple)
    exactly when the ring has fewer than [R] distinct instances, and with
    [NotEnoughZones] (zone-aware) exactly when it has fewer than [R] distinct
    zones.  An empty ring fails with [EmptyRing] instead, and a ring whose
    instance has no zone entry fails with [MissingZoneMapping]. *)
Lemma replicaSet_not_enough_counterexample :
  ~ (forall R T l ringInstanceByToken,
       getReplicaSet (SimpleReplicationStrategy R) T l ringInstanceByToken
         = Err NotEnoughInstances <->
       length (ringInstances ringInstanceByToken l) < R) /\
  ~ (forall R zoneByInstance T l ringInstanceByToken,
       getReplicaSet (ZoneAwareReplicationStrategy R zoneByInstance) T l ringInstanceByToken
         = Err NotEnoughZones <->
       length (ringZones zoneByInstance ringInstanceByToken l) < R).
Proof.
  split.
  - intros H. destruct (H 1 50%Z [] ∅) as [_ Hr].
    specialize (Hr ltac:(vm_compute; lia)). vm_compute in Hr. discriminate.
  - intros H. destruct (H 1 ∅ 50%Z fixtureTokens fixtureInstanceByToken) as [_ Hr].
    specialize (Hr ltac:(vm_compute; lia)). vm_compute in Hr. discriminate.
Qed.

(** C7 (amended): on a non-empty ring in which every instance has a zone
    entry, [getReplicaSet] fails with [NotEnoughInstances] under the simple
    strategy exactly when the ring has fewer than [R] distinct instances,
    and with [NotEnoughZones] under the zone-aware strategy exactly when it
    has fewer than [R] distinct zones. *)
Theorem replicaSet_not_enough (R : nat) (T : Token) (l : list Token)
    (ringInstanceByToken : gmap Z string) (zoneByInstance : gmap string string) :
  l <> [] -> zonesComplete zoneByInstance ringInstanceByToken l = true ->
  (getReplicaSet (SimpleReplicationStrategy R) T l ringInstanceByToken
     = Err NotEnoughInstances <->
   length (ringInstances ringInstanceByToken l) < R) /\
  (getReplicaSet (ZoneAwareReplicationStrategy R zoneByInstance) T l ringInstanceByToken
     = Err NotEnoughZones <->
   length (ringZones zoneByInstance ringInstanceByToken l) < R).
Proof.
  intros Hne Hzones. destruct (Nat.eq_dec R 0) as [->|HR].
  { unfold getReplicaSet. simpl. split; split; intros H; [discriminate|lia|discriminate|lia]. }
  split.
  - destruct (getReplicaSet_count (SimpleReplicationStrategy R) T l ringInstanceByToken
                Hne ltac:(simpl; lia) (keysTotal_simple R ringInstanceByToken l)) as [H _].
    simpl in H. rewrite omap_Some_map in H. exact H.
  - destruct (getReplicaSet_count (ZoneAwareReplicationStrategy R zoneByInstance) T l
                ringInstanceByToken Hne ltac:(simpl; lia)
                (keysTotal_zoneAware R zoneByInstance ringInstanceByToken l Hzones)) as [H _].
    exact H.
Qed.

Lemma replicaSet_not_enough_witness :
  fixtureTokens <> [] /\
  zonesComplete fixtureZoneByInstance fixtureInstanceByToken fixtureTokens = true /\
  getReplicaSet (SimpleReplicationStrategy 4) 50 fixtureTokens fixtureInstanceByToken
    = Err NotEnoughInstances /\
  getReplicaSet (ZoneAwareReplicationStrategy 4 fixtureZoneByInstance) 50 fixtureTokens
    fixtureInstanceByToken = Err NotEnoughZones.
Proof.
  assert (Hne : fixtureTokens <> []) by discriminate.
  assert (Hz : zonesComplete fixtureZoneByInstance fixtureInstanceByToken fixtureTokens = true)
    by (vm_compute; reflexivity).
  destruct (replicaSet_not_enough 4 50 fixtureTokens fixtureInstanceByToken
              fixtureZoneByInstance Hne Hz) as [[_ H1] [_ H2]].
  split; [exact Hne|]. split; [exact Hz|]. split.
  - apply H1. vm_compute. lia.
  - apply H2. vm_compute. lia.
Defined.

(** C4 (simple replica sets, S1-S4): on the fixture ring, here any ring
    whose distinct instances are exactly [instance-0], [instance-1] and
    [instance-2], the simple strategy with [R = 3] returns the set
    {instance-2, instance-1, instance-0} for [T = 48] and [T = 956], and the
    set {instance-1, instance-0, instance-2} for [T = 97] and [T = 50]. *)
Theorem simple_replicaSet_scenarios (l : list Token) (ringInstanceByToken : gmap Z string) :
  ringInstances ringInstanceByToken l ≡ₚ fixtureInstances ->
  (exists r, getReplicaSet simple3 48 l ringInstanceByToken = Ok r /\
             r ≡ₚ ["instance-2"; "instance-1"; "instance-0"]) /\
  (exists r, getReplicaSet simple3 956 l ringInstanceByToken = Ok r /\
             r ≡ₚ ["instance-2"; "instance-1"; "instance-0"]) /\
  (exists r, getReplicaSet simple3 97 l ringInstanceByToken = Ok r /\
             r ≡ₚ ["instance-1"; "instance-0"; "instance-2"]) /\
  (exists r, getReplicaSet simple3 50 l ringInstanceByToken = Ok r /\
             r ≡ₚ ["instance-1"; "instance-0"; "instance-2"]).
Proof.
  intros Hperm.
  assert (H : forall T target, target ≡ₚ fixtureInstances ->
            exists r, getReplicaSet simple3 T l ringInstanceByToken = Ok r /\ r ≡ₚ target).
  { intros T target Ht.
    destruct (replicaSet_fixture_like simple3 T l ringInstanceByToken (or_introl eq_refl) Hperm)
      as (r & Hr & Hrp).
    exists r. split; [done|]. rewrite Hrp, Ht. done. }
  unfold fixtureInstances in H.
  repeat split; apply H; solve_Permutation.
Qed.

Lemma simple_replicaSet_scenarios_witness :
  ringInstances fixtureInstanceByToken fixtureTokens ≡ₚ fixtureInstances /\
  (exists r, getReplicaSet simple3 48 fixtureTokens fixtureInstanceByToken = Ok r /\
             r ≡ₚ ["instance-2"; "instance-1"; "instance-0"]) /\
  (exists r, getReplicaSet simple3 956 fixtureTokens fixtureInstanceByToken = Ok r /\
             r ≡ₚ ["instance-2"; "instance-1"; "instance-0"]) /\
  (exists r, getReplicaSet simple3 97 fixtureTokens fixtureInstanceByToken = Ok r /\
             r ≡ₚ ["instance-1"; "instance-0"; "instance-2"]) /\
  (exists r, getReplicaSet simple3 50 fixtureTokens fixtureInstanceByToken = Ok r /\
             r ≡ₚ ["instance-1"; "instance-0"; "instance-2"]).
Proof.
  assert (Hp : ringInstances fixtureInstanceByToken fixtureTokens ≡ₚ fixtureInstances).
  { vm_compute. solve_Permutation. }
  split; [exact Hp|]. exact (simple_replicaSet_scenarios _ _ Hp).
Defined.

(** C5 (zone-aware replica sets, S8-S9): on the fixture ring, here any ring
    whose distinct instances are exactly [instance-0], [instance-1] and
    [instance-2], each in its own zone, the zone-aware strategy with
    [R = 3] returns the set {instance-2, instance-1, instance-0} for
    [T = 48] and the set {instance-0, instance-2, instance-1} for
    [T = 194]. *)
Theorem zoneAware_replicaSet_scenarios (l : list Token) (ringInstanceByToken : gmap Z string) :
  ringInstances ringInstanceByToken l ≡ₚ fixtureInstances ->
  (exists r, getReplicaSet zoneAware3 48 l ringInstanceByToken = Ok r /\
             r ≡ₚ ["instance-2"; "instance-1"; "instance-0"]) /\
  (exists r, getReplicaSet zoneAware3 194 l ringInstanceByToken = Ok r /\
             r ≡ₚ ["instance-0"; "instance-2"; "instance-1"]).
Proof.
  intros Hperm.
  assert (H : forall T target, target ≡ₚ fixtureInstances ->
            exists r, getReplicaSet zoneAware3 T l ringInstanceByToken = Ok r /\ r ≡ₚ target).
  { intros T target Ht.
    destruct (replicaSet_fixture_like zoneAware3 T l ringInstanceByToken (or_intror eq_refl) Hperm)
      as (r & Hr & Hrp).
    exists r. split; [done|]. rewrite Hrp, Ht. done. }
  unfold fixtureInstances in H.
  split; apply H; solve_Permutation.
Qed.

Lemma zoneAware_replicaSet_scenarios_witness :
  ringInstances fixtureInstanceByToken fixtureTokens ≡ₚ fixtureInstances /\
  (exists r, getReplicaSet zoneAware3 48 fixtureTokens fixtureInstanceByToken = Ok r /\
             r ≡ₚ ["instance-2"; "instance-1"; "instance-0"]) /\
  (exists r, getReplicaSet zoneAware3 194 fixtureTokens fixtureInstanceByToken = Ok r /\
             r ≡ₚ ["instance-0"; "instance-2"; "instance-1"]).
Proof.
  assert (Hp : ringInstances fixtureInstanceByToken fixtureTokens ≡ₚ fixtureInstances).
  { vm_compute. solve_Permutation. }
  split; [exact Hp|]. exact (zoneAware_replicaSet_scenarios _ _ Hp).
Defined.

(** C10 (zone-aware query tokens between ring tokens): on the fixture ring,
    here any ring whose distinct instances are exactly the three fixture
    instances, the zone-aware strategy with [R = 3] returns the set
    {instance-2, instance-1, instance-0} for [T = 50] and the set
    {instance-0, instance-2, instance-1} for [T = 190]; and its result at any
    query token equals its result at every token with the same owning ring
    position (the same count of ring tokens below it), in particular the
    result at a token strictly between two ring tokens equals the result at
    the upper one. *)
Theorem zoneAware_replicaSet_between (l : list Token) (ringInstanceByToken : gmap Z string) :
  ringInstances ringInstanceByToken l ≡ₚ fixtureInstances ->
  (exists r, getReplicaSet zoneAware3 50 l ringInstanceByToken = Ok r /\
             r ≡ₚ ["instance-2"; "instance-1"; "instance-0"]) /\
  (exists r, getReplicaSet zoneAware3 190 l ringInstanceByToken = Ok r /\
             r ≡ₚ ["instance-0"; "instance-2"; "instance-1"]) /\
  (forall T1 T2, searchToken l T1 = searchToken l T2 ->
     getReplicaSet zoneAware3 T1 l ringInstanceByToken =
     getReplicaSet zoneAware3 T2 l ringInstanceByToken).
Proof.
  intros Hperm.
  assert (H : forall T target, target ≡ₚ fixtureInstances ->
            exists r, getReplicaSet zoneAware3 T l ringInstanceByToken = Ok r /\ r ≡ₚ target).
  { intros T target Ht.
    destruct (replicaSet_fixture_like zoneAware3 T l ringInstanceByToken (or_intror eq_refl) Hperm)
      as (r & Hr & Hrp).
    exists r. split; [done|]. rewrite Hrp, Ht. done. }
  unfold fixtureInstances in H.
  split; [apply H; solve_Permutation|]. split; [apply H; solve_Permutation|].
  intros T1 T2 HT. unfold getReplicaSet, successorIndex. rewrite HT. reflexivity.
Qed.

Lemma zoneAware_replicaSet_between_witness :
  ringInstances fixtureInstanceByToken fixtureTokens ≡ₚ fixtureInstances /\
  (exists r, getReplicaSet zoneAware3 50 fixtureTokens fixtureInstanceByToken = Ok r /\
             r ≡ₚ ["instance-2"; "instance-1"; "instance-0"]) /\
  (exists r, getReplicaSet zoneAware3 190 fixtureTokens fixtureInstanceByToken = Ok r /\
             r ≡ₚ ["instance-0"; "instance-2"; "instance-1"]) /\
  getReplicaSet zoneAware3 50 fixtureTokens fixtureInstanceByToken =
    getReplicaSet zoneAware3 97 fixtureTokens fixtureInstanceByToken /\
  getReplicaSet zoneAware3 190 fixtureTokens fixtureInstanceByToken =
    getReplicaSet zoneAware3 194 fixtureTokens fixtureInstanceByToken.
Proof.
  assert (Hp : ringInstances fixtureInstanceByToken fixtureTokens ≡ₚ fixtureInstances).
  { vm_compute. solve_Permutation. }
  destruct (zoneAware_replicaSet_between _ _ Hp) as (H50 & H190 & Hsame).
  split; [exact Hp|]. split; [exact H50|]. split; [exact H190|].
  split; apply Hsame; vm_compute; reflexivity.
Defined.

(** C9 (determinism): each operation of both strategies is a function of
    its arguments: two calls with the same strategy, token and sorted ring
    tokens, over instance indexes that give every ring token the same
    instance (in particular, over the same index), return equal results,
    for [getReplicaSet], [getReplicaStart] and [getLastReplicaToken]. *)
Theorem operations_deterministic (s : Strategy) (T : Token) (l : list Token)
    (ringInstanceByToken1 ringInstanceByToken2 : gmap Z string) :
  (forall t, t ∈ l -> ringInstanceByToken1 !! t = ringInstanceByToken2 !! t) ->
  getReplicaSet s T l ringInstanceByToken1 = getReplicaSet s T l ringInstanceByToken2 /\
  getReplicaStart s T l ringInstanceByToken1 = getReplicaStart s T l ringInstanceByToken2 /\
  getLastReplicaToken s T l ringInstanceByToken1 =
    getLastReplicaToken s T l ringInstanceByToken2.
Proof.
  intros Hsame.
  assert (Hagree : forall j, j < length l ->
            instanceOf ringInstanceByToken1 (tokenAt l j) =
            instanceOf ringInstanceByToken2 (tokenAt l j)).
  { intros j Hj. unfold instanceOf. rewrite Hsame; [done|]. apply tokenAt_elem. done. }
  unfold getReplicaSet, getReplicaStart, getLastReplicaToken.
  destruct (replicationFactor s =? 0); [done|].
  destruct l as [|t0 l'] eqn:El; [done|]. rewrite <- El in *.
  assert (Hn : 0 < length l) by (rewrite El; simpl; lia).
  split; [apply set_walk_agree; done|].
  destruct (indexOf l T) as [i|] eqn:Ei; [|done].
  destruct (indexOf_Some _ _ _ Ei) as [Hi _].
  unfold key. rewrite !Hagree by done.
  destruct (strategyKey s _) as [k|]; [|done].
  rewrite start_walk_agree with (inst2 := fun j => instanceOf ringInstanceByToken2 (tokenAt l j))
    by done.
  rewrite last_walk_agree with (inst2 := fun j => instanceOf ringInstanceByToken2 (tokenAt l j))
    by done.
  done.
Qed.

Lemma operations_deterministic_witness :
  (forall t, t ∈ fixtureTokens ->
     fixtureInstanceByToken !! t = <[5%Z := "instance-9"]> fixtureInstanceByToken !! t) /\
  getReplicaSet simple3 50 fixtureTokens fixtureInstanceByToken =
    getReplicaSet simple3 50 fixtureTokens (<[5%Z := "instance-9"]> fixtureInstanceByToken) /\
  getReplicaStart zoneAware3 97 fixtureTokens fixtureInstanceByToken =
    getReplicaStart zoneAware3 97 fixtureTokens (<[5%Z := "instance-9"]> fixtureInstanceByToken) /\
  getLastReplicaToken simple3 853 fixtureTokens fixtureInstanceByToken =
    getLastReplicaToken simple3 853 fixtureTokens (<[5%Z := "instance-9"]> fixtureInstanceByToken).
Proof.
  assert (H : forall t, t ∈ fixtureTokens ->
     fixtureInstanceByToken !! t = <[5%Z := "instance-9"]> fixtureInstanceByToken !! t).
  { intros t Ht. apply list_elem_of_In in Ht. simpl in Ht.
    destruct Ht as [<-|[<-|[<-|[<-|[<-|[<-|[]]]]]]]; vm_compute; reflexivity. }
  split; [exact H|].
  split; [apply (operations_deterministic simple3 50 fixtureTokens _ _ H)|].
  split; [apply (operations_deterministic zoneAware3 97 fixtureTokens _ _ H)|].
  apply (operations_deterministic simple3 853 fixtureTokens _ _ H).
Defined.

(** C2 (simple replica starts, S5 to S7): with [R = 3] the simple
    strategy's [getReplicaStart] returns 48 for 48 (instance-2, whose
    predecessor 902 is also instance-2), 902 for 97 (instance-1) and 853 for
    194 (instance-0) on the fixture ring.  The first of these holds on every
    ring: a token whose predecessor has the same key (instance, or zone) is
    its own replica start, for either strategy and any [R >= 1]. *)
Theorem simple_replicaStart_scenarios :
  (forall (s : Strategy) (l : list Token) (ringInstanceByToken : gmap Z string)
     (T : Token) (i : nat) (k : string),
     1 <= replicationFactor s -> indexOf l T = Some i ->
     key (fun j => instanceOf ringInstanceByToken (tokenAt l j)) (strategyKey s) i = Some k ->
     key (fun j => instanceOf ringInstanceByToken (tokenAt l j)) (strategyKey s)
       ((i + length l - 1) mod length l) = Some k ->
     getReplicaStart s T l ringInstanceByToken = Ok T) /\
  getReplicaStart simple3 48 fixtureTokens fixtureInstanceByToken = Ok 48%Z /\
  getReplicaStart simple3 97 fixtureTokens fixtureInstanceByToken = Ok 902%Z /\
  getReplicaStart simple3 194 fixtureTokens fixtureInstanceByToken = Ok 853%Z.
Proof.
  split; [|split; [|split]]; [|vm_compute; reflexivity..].
  intros s l m T i k HR Hi Hk Hp.
  destruct (indexOf_Some l T i Hi) as [Hin HTi].
  assert (Hne : l <> []) by (intros ->; simpl in Hin; lia).
  unfold getReplicaStart. rewrite replicationFactor_pos, nonempty_match by done.
  rewrite Hi, Hk.
  destruct (length l - 1) as [|f] eqn:Ef; cbn [start_walk].
  - rewrite HTi. done.
  - rewrite Hp, decide_True by done. rewrite <- HTi. do 2 f_equal.
    rewrite Nat.Div0.add_mod_idemp_l.
    rewrite (mod_shift (i + length l - 1 + 1) i (length l)); [|lia|lia].
    apply Nat.mod_small. done.
Qed.

Lemma simple_replicaStart_scenarios_witness :
  indexOf fixtureTokens 48%Z = Some 0 /\
  getReplicaStart simple3 48 fixtureTokens fixtureInstanceByToken = Ok 48%Z.
Proof.
  split; [vm_compute; reflexivity|].
  apply (proj1 simple_replicaStart_scenarios simple3 fixtureTokens fixtureInstanceByToken
           48%Z 0 "instance-2");
    [simpl; lia|vm_compute; reflexivity|vm_compute; reflexivity|vm_compute; reflexivity].
Defined.

(** * Further properties of the repository's code *)

(** ** Ephemeral matchers *)

Section EphemeralFacts.
Import ephemeral.

Lemma isEphemeralQueryFrom_skip (idx : Z) (pre post : list Matcher) :
  Forall (fun x => isEphemeralMatcher x = false) pre ->
  isEphemeralQueryFrom idx (pre ++ post) =
  isEphemeralQueryFrom (idx + Z.of_nat (length pre))%Z post.
Proof.
  revert idx. induction pre as [|x pre IH]; intros idx Hpre; simpl.
  - f_equal. lia.
  - apply Forall_cons in Hpre as [Hx Hpre]. rewrite Hx, IH by done. f_equal. lia.
Qed.

Lemma isEphemeralQueryFrom_none (idx : Z) (matchers : list Matcher) :
  Forall (fun x => isEphemeralMatcher x = false) matchers ->
  isEphemeralQueryFrom idx matchers = (false, (-1)%Z, None).
Proof.
  intros H. rewrite <- (app_nil_r matchers), isEphemeralQueryFrom_skip by done. done.
Qed.

End EphemeralFacts.

(** ** Object listings *)

Section StringFacts.

Lemma string_prefix_app (p n : string) : String.prefix p (p ++ n)%string = true.
Proof.
  induction p as [|a p IH]; simpl; [by destruct n|].
  destruct (Ascii.ascii_dec a a); [done|congruence].
Qed.

Lemma string_prefix_app_cancel (p q n : string) :
  String.prefix (p ++ q)%string (p ++ n)%string = String.prefix q n.
Proof.
  induction p as [|a p IH]; simpl; [done|].
  destruct (Ascii.ascii_dec a a); [done|congruence].
Qed.

Lemma string_prefix_split (p s : string) :
  String.prefix p s = true -> exists n, s = (p ++ n)%string.
Proof.
  revert s. induction p as [|a p IH]; intros s H; [exists s; done|].
  destruct s as [|b s]; simpl in H; [discriminate|].
  destruct (Ascii.ascii_dec a b) as [<-|]; [|discriminate].
  destruct (IH s H) as [n ->]. exists n. done.
Qed.

Lemma string_length_app (p n : string) :
  String.length (p ++ n)%string = String.length p + String.length n.
Proof. induction p as [|a p IH]; simpl; [done|]. rewrite IH. done. Qed.

Lemma string_substring_all (s : string) : String.substring 0 (String.length s) s = s.
Proof. induction s as [|a s IH]; simpl; [done|]. rewrite IH. done. Qed.

Lemma string_substring_app (p n : string) :
  String.substring (String.length p) (String.length n) (p ++ n)%string = n.
Proof.
  induction p as [|a p IH]; simpl; [apply string_substring_all|]. exact IH.
Qed.

Lemma CutPrefix_app (p n : string) : gostrings.CutPrefix (p ++ n)%string p = (n, true).
Proof.
  unfold gostrings.CutPrefix. rewrite string_prefix_app, string_length_app.
  replace (String.length p + String.length n - String.length p) with (String.length n) by lia.
  rewrite string_substring_app. done.
Qed.

Lemma CutPrefix_not (p s : string) :
  String.prefix p s = false -> gostrings.CutPrefix s p = (s, false).
Proof. unfold gostrings.CutPrefix. intros ->. done. Qed.

End StringFacts.

Section ObjtoolsFacts.
Import objtools.

Lemma cutObjectNames_done (prefix : string) (objects : list ObjectAttributes) (ns acc : list string) :
  Forall2 (fun o n => Name o = (prefix ++ n)%string) objects ns ->
  cutObjectNames prefix objects acc = Done (acc ++ ns).
Proof.
  intros H. revert acc. induction H as [|o n objects ns Hon _ IH]; intros acc; simpl.
  - rewrite app_nil_r. done.
  - rewrite Hon, CutPrefix_app. simpl. rewrite IH, <- app_assoc. done.
Qed.

Lemma cutPrefixNames_done (prefix : string) (prefixes ms acc : list string) :
  Forall2 (fun q m => q = (prefix ++ m)%string) prefixes ms ->
  cutPrefixNames prefix prefixes acc = Done (acc ++ map (fun m => gostrings.TrimSuffix m Delim) ms).
Proof.
  intros H. revert acc. induction H as [|q m prefixes ms Hqm _ IH]; intros acc; simpl.
  - rewrite app_nil_r. done.
  - rewrite Hqm, CutPrefix_app. simpl. rewrite IH, <- app_assoc. done.
Qed.

Lemma cutObjectNames_failed (prefix : string) (objects : list ObjectAttributes) (acc : list string) :
  Exists (fun o => String.prefix prefix (Name o) = false) objects ->
  exists err, cutObjectNames prefix objects acc = Failed err.
Proof.
  intros H. revert acc. induction H as [o objects Ho|o objects _ IH]; intros acc; simpl.
  - rewrite CutPrefix_not by done. simpl. eauto.
  - destruct (String.prefix prefix (Name o)) eqn:Ho.
    + destruct (string_prefix_split _ _ Ho) as [n Hn]. rewrite Hn, CutPrefix_app. simpl. apply IH.
    + rewrite CutPrefix_not by done. simpl. eauto.
Qed.

Lemma cutPrefixNames_failed (prefix : string) (prefixes acc : list string) :
  Exists (fun q => String.prefix prefix q = false) prefixes ->
  exists err, cutPrefixNames prefix prefixes acc = Failed err.
Proof.
  intros H. revert acc. induction H as [q prefixes Hq|q prefixes _ IH]; intros acc; simpl.
  - rewrite CutPrefix_not by done. simpl. eauto.
  - destruct (String.prefix prefix q) eqn:Hq.
    + destruct (string_prefix_split _ _ Hq) as [n ->]. rewrite CutPrefix_app. simpl. apply IH.
    + rewrite CutPrefix_not by done. simpl. eauto.
Qed.

Lemma split_all_prefixed {A : Type} (f : A -> string) (prefix : string) (xs : list A) :
  Forall (fun x => String.prefix prefix (f x) = true) xs ->
  exists ns, Forall2 (fun x n => f x = (prefix ++ n)%string) xs ns.
Proof.
  induction 1 as [|x xs Hx _ [ns IH]]; [exists []; constructor|].
  destruct (string_prefix_split _ _ Hx) as [n Hn]. exists (n :: ns). constructor; done.
Qed.

Lemma ToNamesWithoutPrefix_effective (result : ListResult) (prefix : string) :
  ToNamesWithoutPrefix result prefix =
  match cutObjectNames (effectivePrefix prefix) (Objects result) [] with
  | Failed err => Failed err
  | Done names => cutPrefixNames (effectivePrefix prefix) (Prefixes result) names
  end.
Proof. reflexivity. Qed.

Lemma ToNamesWithoutPrefix_done_effective (result : ListResult) (prefix : string)
    (ns ms : list string) :
  Forall2 (fun o n => Name o = (effectivePrefix prefix ++ n)%string) (Objects result) ns ->
  Forall2 (fun q m => q = (effectivePrefix prefix ++ m)%string) (Prefixes result) ms ->
  ToNamesWithoutPrefix result prefix =
  Done (ns ++ map (fun m => gostrings.TrimSuffix m Delim) ms).
Proof.
  intros Ho Hp. rewrite ToNamesWithoutPrefix_effective.
  rewrite (cutObjectNames_done _ _ ns [] Ho). simpl.
  rewrite (cutPrefixNames_done _ _ ms ns Hp). done.
Qed.

End ObjtoolsFacts.

(** ** Index cache keys and lookups *)

Section IndexcacheFacts.
Import indexcache.

Lemma list_ascii_of_string_app (s t : string) :
  list_ascii_of_string (s ++ t)%string = list_ascii_of_string s ++ list_ascii_of_string t.
Proof. induction s as [|a s IH]; simpl; [done|]. rewrite IH. done. Qed.

Lemma list_ascii_of_string_inj (s t : string) :
  list_ascii_of_string s = list_ascii_of_string t -> s = t.
Proof.
  intros H. rewrite <- (string_of_list_ascii_of_string s), <- (string_of_list_ascii_of_string t).
  rewrite H. done.
Qed.

Lemma list_ascii_of_string_length (s : string) :
  length (list_ascii_of_string s) = String.length s.
Proof. induction s as [|a s IH]; simpl; [done|]. rewrite IH. done. Qed.

(** Two lists that end with a separator followed by a separator-free tail
    split there the same way. *)
Lemma split_at_last_sep {A : Type} (c : A) (x1 y1 x2 y2 : list A) :
  ~ In c y1 -> ~ In c y2 -> x1 ++ c :: y1 = x2 ++ c :: y2 -> x1 = x2 /\ y1 = y2.
Proof.
  revert x2. induction x1 as [|a x1 IH]; intros x2 Hy1 Hy2 H; destruct x2 as [|b x2]; simpl in H.
  - injection H as ->. done.
  - injection H as -> Hy. exfalso. apply Hy1. rewrite Hy. apply in_or_app. right. left. done.
  - injection H as -> Hy. exfalso. apply Hy2. rewrite <- Hy. apply in_or_app. right. left. done.
  - injection H as -> Hxy. destruct (IH x2 Hy1 Hy2 Hxy) as [-> ->]. done.
Qed.

(** Two lists that start with a separator-free head followed by a
    separator split there the same way. *)
Lemma split_at_first_sep {A : Type} (c : A) (x1 y1 x2 y2 : list A) :
  ~ In c x1 -> ~ In c x2 -> x1 ++ c :: y1 = x2 ++ c :: y2 -> x1 = x2 /\ y1 = y2.
Proof.
  revert x2. induction x1 as [|a x1 IH]; intros x2 Hx1 Hx2 H; destruct x2 as [|b x2]; simpl in H.
  - injection H as ->. done.
  - injection H as -> _. exfalso. apply Hx2. left. done.
  - injection H as -> _. exfalso. apply Hx1. left. done.
  - injection H as -> Hxy.
    destruct (IH x2 (fun h => Hx1 (or_intror h)) (fun h => Hx2 (or_intror h)) Hxy) as [-> ->].
    done.
Qed.

Lemma formatUint_no_colon (x : N) : ~ In ":"%char (list_ascii_of_string (formatUint x)).
Proof.
  unfold formatUint. generalize (N.to_uint x) as d.
  induction d as [|d IHd|d IHd|d IHd|d IHd|d IHd|d IHd|d IHd|d IHd|d IHd|d IHd];
    cbn [NilEmpty.string_of_uint list_ascii_of_string In]; [tauto|..];
    intros [H|H]; (discriminate || exact (IHd H)).
Qed.

Lemma formatUint_inj (x y : N) : formatUint x = formatUint y -> x = y.
Proof.
  unfold formatUint. intros H.
  assert (Hd : N.to_uint x = N.to_uint y).
  { pose proof (NilEmpty.usu (N.to_uint x)) as Hx. pose proof (NilEmpty.usu (N.to_uint y)) as Hy.
    rewrite H in Hx. congruence. }
  rewrite <- (DecimalN.Unsigned.of_to x), <- (DecimalN.Unsigned.of_to y), Hd. done.
Qed.

Lemma keysMapping_lookup (f : N -> string) (ids : list N) (m0 : gmap N string) (id : N) :
  foldl (fun m i => <[i := f i]> m) m0 ids !! id =
  if decide (id ∈ ids) then Some (f id) else m0 !! id.
Proof.
  revert m0. induction ids as [|i ids IH]; intros m0; simpl.
  - destruct (decide (id ∈ [])) as [Hin|]; [apply not_elem_of_nil in Hin; done|done].
  - rewrite IH. destruct (decide (id ∈ ids)) as [Hin|Hnin];
      destruct (decide (id ∈ i :: ids)) as [Hin'|Hnin']; try done.
    + exfalso. apply Hnin'. apply elem_of_cons. right. done.
    + apply elem_of_cons in Hin' as [->|]; [|done]. rewrite lookup_insert_eq. done.
    + rewrite lookup_insert_ne; [done|]. intros ->. apply Hnin'. apply elem_of_cons. left. done.
Qed.

Lemma collectSeriesHits_spec (key : N -> string) (keysMapping : gmap N string)
    (results : gmap string (list Byte.byte)) (ids : list N) :
  (forall id, id ∈ ids -> keysMapping !! id = Some (key id)) ->
  forall hits misses,
  (forall id, (collectSeriesHits keysMapping results ids hits misses).1 !! id =
     match (if decide (id ∈ ids) then results !! key id else None) with
     | Some v => Some v
     | None => hits !! id
     end) /\
  (collectSeriesHits keysMapping results ids hits misses).2 =
    misses ++ filter (fun id => results !! key id = None) ids.
Proof.
  induction ids as [|i ids IH]; intros Hkm hits misses; simpl.
  - split; [|rewrite app_nil_r; done]. intros id.
    destruct (decide (id ∈ [])) as [Hin|]; [apply not_elem_of_nil in Hin; done|done].
  - assert (Hkm' : forall id, id ∈ ids -> keysMapping !! id = Some (key id))
      by (intros id Hid; apply Hkm, elem_of_cons; right; done).
    rewrite (Hkm i ltac:(apply elem_of_cons; left; done)).
    rewrite filter_cons.
    destruct (results !! key i) as [v|] eqn:Ev.
    + destruct (IH Hkm' (<[i := v]> hits) misses) as [IH1 IH2].
      rewrite decide_False by congruence. split; [|exact IH2].
      intros id. rewrite IH1.
      destruct (decide (id ∈ ids)) as [Hin|Hnin];
        destruct (decide (id ∈ i :: ids)) as [Hin'|Hnin'].
      * destruct (decide (id = i)) as [->|Hne]; [rewrite Ev; done|].
        destruct (results !! key id); [done|]. rewrite lookup_insert_ne; congruence.
      * exfalso. apply Hnin'. apply elem_of_cons. right. done.
      * apply elem_of_cons in Hin' as [->|]; [|done]. rewrite Ev, lookup_insert_eq. done.
      * rewrite lookup_insert_ne; [done|]. intros ->. apply Hnin'. apply elem_of_cons. left. done.
    + destruct (IH Hkm' hits (misses ++ [i])) as [IH1 IH2].
      rewrite decide_True by done. split; [|rewrite IH2, <- app_assoc; done].
      intros id. rewrite IH1.
      destruct (decide (id ∈ ids)) as [Hin|Hnin];
        destruct (decide (id ∈ i :: ids)) as [Hin'|Hnin'].
      * done.
      * exfalso. apply Hnin'. apply elem_of_cons. right. done.
      * apply elem_of_cons in Hin' as [->|]; [|done]. rewrite Ev. done.
      * done.
Qed.

End IndexcacheFacts.

(** * Properties of the other packages *)

Section EphemeralTheorems.
Import ephemeral.

(** [IsEphemeralQuery] is decided by the first [__ephemeral__="..."]
    matcher: its position is the index, the flag is whether its value is
    "true", and a value other than "true" or "false" is an error. *)
Theorem IsEphemeralQuery_first (pre : list Matcher) (m : Matcher) (post : list Matcher) :
  Forall (fun x => isEphemeralMatcher x = false) pre ->
  isEphemeralMatcher m = true ->
  IsEphemeralQuery (pre ++ m :: post) =
  (String.eqb (Value m) "true", Z.of_nat (length pre),
   if String.eqb (Value m) "true" || String.eqb (Value m) "false" then None
   else Some errInvalidEphemeralLabel).
Proof.
  intros Hpre Hm. unfold IsEphemeralQuery.
  rewrite isEphemeralQueryFrom_skip by exact Hpre. cbn [isEphemeralQueryFrom].
  rewrite Hm. destruct (String.eqb (Value m) "true"); [done|].
  destruct (String.eqb (Value m) "false"); done.
Qed.

Lemma IsEphemeralQuery_first_witness :
  IsEphemeralQuery
    [{| Type_ := MatchEqual; Name := "job"; Value := "api" |};
     {| Type_ := MatchNotEqual; Name := EphemeralLabelName; Value := "true" |};
     {| Type_ := MatchEqual; Name := EphemeralLabelName; Value := "yes" |};
     {| Type_ := MatchEqual; Name := EphemeralLabelName; Value := "true" |}] =
  (false, 2%Z, Some errInvalidEphemeralLabel).
Proof.
  apply (IsEphemeralQuery_first
    [{| Type_ := MatchEqual; Name := "job"; Value := "api" |};
     {| Type_ := MatchNotEqual; Name := EphemeralLabelName; Value := "true" |}]
    {| Type_ := MatchEqual; Name := EphemeralLabelName; Value := "yes" |}
    [{| Type_ := MatchEqual; Name := EphemeralLabelName; Value := "true" |}]).
  - repeat constructor.
  - reflexivity.
Defined.

(** Without an [__ephemeral__="..."] matcher the query is not ephemeral
    (index -1) and [RemoveEphemeralMatcher] returns the matchers unchanged. *)
Theorem RemoveEphemeralMatcher_absent (matchers : list Matcher) :
  Forall (fun x => isEphemeralMatcher x = false) matchers ->
  IsEphemeralQuery matchers = (false, (-1)%Z, None) /\
  RemoveEphemeralMatcher matchers = (false, matchers, None).
Proof.
  intros H. unfold RemoveEphemeralMatcher, IsEphemeralQuery.
  rewrite isEphemeralQueryFrom_none by exact H. done.
Qed.

Lemma RemoveEphemeralMatcher_absent_witness :
  RemoveEphemeralMatcher
    [{| Type_ := MatchRegexp; Name := EphemeralLabelName; Value := "true" |};
     {| Type_ := MatchEqual; Name := "job"; Value := "api" |}] =
  (false,
    [{| Type_ := MatchRegexp; Name := EphemeralLabelName; Value := "true" |};
     {| Type_ := MatchEqual; Name := "job"; Value := "api" |}], None).
Proof.
  apply (RemoveEphemeralMatcher_absent
    [{| Type_ := MatchRegexp; Name := EphemeralLabelName; Value := "true" |};
     {| Type_ := MatchEqual; Name := "job"; Value := "api" |}]).
  repeat constructor.
Defined.

(** [RemoveEphemeralMatcher] removes exactly the first
    [__ephemeral__="..."] matcher when its value is "true" or "false" (later
    ones stay), and otherwise returns the matchers unchanged with the
    error. *)
Theorem RemoveEphemeralMatcher_first (pre : list Matcher) (m : Matcher) (post : list Matcher) :
  Forall (fun x => isEphemeralMatcher x = false) pre ->
  isEphemeralMatcher m = true ->
  RemoveEphemeralMatcher (pre ++ m :: post) =
  if String.eqb (Value m) "true" || String.eqb (Value m) "false"
  then (String.eqb (Value m) "true", pre ++ post, None)
  else (false, pre ++ m :: post, Some errInvalidEphemeralLabel).
Proof.
  intros Hpre Hm. unfold RemoveEphemeralMatcher, IsEphemeralQuery.
  rewrite isEphemeralQueryFrom_skip by exact Hpre. cbn [isEphemeralQueryFrom].
  rewrite Hm.
  assert (Hidx : (0 + Z.of_nat (length pre) <? 0)%Z = false) by (apply Z.ltb_ge; lia).
  assert (Hn : Z.to_nat (0 + Z.of_nat (length pre)) = length pre) by lia.
  assert (Hrest : take (length pre) (pre ++ m :: post) ++ drop (length pre + 1) (pre ++ m :: post)
                  = pre ++ post).
  { rewrite take_app_length. f_equal.
    replace (pre ++ m :: post) with ((pre ++ [m]) ++ post) by (rewrite <- app_assoc; done).
    apply drop_app_length'. rewrite length_app. simpl. lia. }
  destruct (String.eqb (Value m) "true"); cbn [orb negb]; rewrite ?Hidx, ?Hn, ?Hrest; [done|].
  destruct (String.eqb (Value m) "false"); cbn [orb]; rewrite ?Hidx, ?Hn, ?Hrest; done.
Qed.

Lemma RemoveEphemeralMatcher_first_witness :
  RemoveEphemeralMatcher
    [{| Type_ := MatchEqual; Name := "job"; Value := "api" |};
     {| Type_ := MatchEqual; Name := EphemeralLabelName; Value := "false" |};
     {| Type_ := MatchEqual; Name := EphemeralLabelName; Value := "true" |}] =
  (false,
    [{| Type_ := MatchEqual; Name := "job"; Value := "api" |};
     {| Type_ := MatchEqual; Name := EphemeralLabelName; Value := "true" |}], None).
Proof.
  apply (RemoveEphemeralMatcher_first
    [{| Type_ := MatchEqual; Name := "job"; Value := "api" |}]
    {| Type_ := MatchEqual; Name := EphemeralLabelName; Value := "false" |}
    [{| Type_ := MatchEqual; Name := EphemeralLabelName; Value := "true" |}]).
  - repeat constructor.
  - reflexivity.
Defined.

(** Inserting an [__ephemeral__="true"] or ["false"] matcher anywhere in
    matchers that have none, then removing it, gives back the matchers and
    the flag. *)
Theorem RemoveEphemeralMatcher_roundtrip (matchers : list Matcher) (i : nat) (b : bool) :
  Forall (fun x => isEphemeralMatcher x = false) matchers ->
  i <= length matchers ->
  RemoveEphemeralMatcher
    (take i matchers ++
     {| Type_ := MatchEqual; Name := EphemeralLabelName;
        Value := if b then "true" else "false" |} :: drop i matchers) =
  (b, matchers, None).
Proof.
  intros H Hi. unfold RemoveEphemeralMatcher, IsEphemeralQuery.
  rewrite isEphemeralQueryFrom_skip
    by (apply Forall_take; exact H).
  cbn [isEphemeralQueryFrom]. rewrite length_take_le by exact Hi.
  assert (Hidx : (0 + Z.of_nat i <? 0)%Z = false) by (apply Z.ltb_ge; lia).
  assert (Hn : Z.to_nat (0 + Z.of_nat i) = i) by lia.
  set (m := {| Type_ := MatchEqual; Name := EphemeralLabelName;
               Value := if b then "true" else "false" |}).
  assert (Hlen : length (take i matchers) = i) by (apply length_take_le; exact Hi).
  assert (Hrest : take i (take i matchers ++ m :: drop i matchers) ++
                  drop (i + 1) (take i matchers ++ m :: drop i matchers) = matchers).
  { rewrite (take_app_length' _ _ i) by done.
    replace (take i matchers ++ m :: drop i matchers)
      with ((take i matchers ++ [m]) ++ drop i matchers) by (rewrite <- app_assoc; done).
    rewrite (drop_app_length' _ _ (i + 1)) by (rewrite length_app, Hlen; simpl; lia).
    apply take_drop. }
  assert (Hm : isEphemeralMatcher m = true) by reflexivity.
  rewrite Hm. destruct b.
  - replace (String.eqb (Value m) "true") with true by reflexivity.
    cbn beta iota. cbn [orb]. rewrite Hidx, Hn, Hrest. done.
  - replace (String.eqb (Value m) "true") with false by reflexivity.
    replace (String.eqb (Value m) "false") with true by reflexivity.
    cbn beta iota. cbn [orb]. rewrite Hidx, Hn, Hrest. done.
Qed.

Lemma RemoveEphemeralMatcher_roundtrip_witness :
  RemoveEphemeralMatcher
    [{| Type_ := MatchEqual; Name := "job"; Value := "api" |};
     {| Type_ := MatchEqual; Name := EphemeralLabelName; Value := "true" |};
     {| Type_ := MatchNotRegexp; Name := "env"; Value := "dev" |}] =
  (true,
    [{| Type_ := MatchEqual; Name := "job"; Value := "api" |};
     {| Type_ := MatchNotRegexp; Name := "env"; Value := "dev" |}], None).
Proof.
  apply (RemoveEphemeralMatcher_roundtrip
    [{| Type_ := MatchEqual; Name := "job"; Value := "api" |};
     {| Type_ := MatchNotRegexp; Name := "env"; Value := "dev" |}] 1 true).
  - repeat constructor.
  - simpl. lia.
Defined.

End EphemeralTheorems.

Section ObjtoolsTheorems.
Import objtools.

Lemma Forall2_map_self_app {A : Type} (f : A -> string) (xs : list A) :
  Forall2 (fun x y => f x = ("" ++ y)%string) xs (map f xs).
Proof. induction xs; simpl; constructor; done. Qed.

Lemma Forall_of_not_Exists_false {A : Type} (P : A -> bool) (xs : list A) :
  ~ Exists (fun x => P x = false) xs -> Forall (fun x => P x = true) xs.
Proof.
  induction xs as [|x xs IH]; intros H; constructor.
  - destruct (P x) eqn:E; [done|]. exfalso. apply H. constructor. exact E.
  - apply IH. intros He. apply H. right. exact He.
Qed.

(** With the blank prefix nothing is cut: [ToNamesWithoutPrefix] never
    fails, and [ToNames] lists the object names followed by the prefixes
    without their trailing "/". *)
Theorem ToNames_blank_prefix (result : ListResult) :
  ToNamesWithoutPrefix result "" =
    Done (map Name (Objects result) ++
          map (fun q => gostrings.TrimSuffix q Delim) (Prefixes result)) /\
  ToNames result =
    map Name (Objects result) ++ map (fun q => gostrings.TrimSuffix q Delim) (Prefixes result).
Proof.
  assert (H : ToNamesWithoutPrefix result "" =
    Done (map Name (Objects result) ++
          map (fun q => gostrings.TrimSuffix q Delim) (Prefixes result))).
  { apply ToNamesWithoutPrefix_done_effective; change (effectivePrefix "") with ""%string.
    - apply Forall2_map_self_app.
    - induction (Prefixes result); constructor; done. }
  split; [exact H|]. unfold ToNames. rewrite H. done.
Qed.

(** For a prefix that does not end in "/", [ToNamesWithoutPrefix] strips
    it from every object name and every prefix, and then drops one
    trailing "/" of each prefix. *)
Theorem ToNamesWithoutPrefix_strip (result : ListResult) (prefix : string)
    (ns ms : list string) :
  gostrings.HasSuffix prefix Delim = false ->
  Forall2 (fun o n => Name o = (prefix ++ n)%string) (Objects result) ns ->
  Forall2 (fun q m => q = (prefix ++ m)%string) (Prefixes result) ms ->
  ToNamesWithoutPrefix result prefix =
  Done (ns ++ map (fun m => gostrings.TrimSuffix m Delim) ms).
Proof.
  intros Hs Ho Hp.
  assert (He : effectivePrefix prefix = prefix)
    by (unfold effectivePrefix; rewrite Hs, andb_false_r; done).
  apply ToNamesWithoutPrefix_done_effective; rewrite He; assumption.
Qed.

Lemma ToNamesWithoutPrefix_strip_witness :
  ToNamesWithoutPrefix
    {| Objects := [Build_ObjectAttributes "tenant/meta.json" 0 (Build_VersionInfo "v1" true false false)];
       Prefixes := ["tenant/chunks/"] |} "tenant" =
  Done ["/meta.json"; "/chunks"].
Proof.
  apply (ToNamesWithoutPrefix_strip
    {| Objects := [Build_ObjectAttributes "tenant/meta.json" 0 (Build_VersionInfo "v1" true false false)];
       Prefixes := ["tenant/chunks/"] |} "tenant" ["/meta.json"] ["/chunks/"]).
  - reflexivity.
  - repeat constructor.
  - repeat constructor.
Defined.

(** [ToNamesWithoutPrefix] fails exactly when an object name or a prefix
    of the listing does not start with the prefix it cuts. *)
Theorem ToNamesWithoutPrefix_fails_iff (result : ListResult) (prefix : string) :
  (exists err, ToNamesWithoutPrefix result prefix = Failed err) <->
  Exists (fun o => String.prefix (effectivePrefix prefix) (Name o) = false) (Objects result) \/
  Exists (fun q => String.prefix (effectivePrefix prefix) q = false) (Prefixes result).
Proof.
  split.
  - intros [err Herr].
    destruct (decide (Exists (fun o => String.prefix (effectivePrefix prefix) (Name o) = false)
                        (Objects result))) as [Ho|Ho]; [left; exact Ho|].
    destruct (decide (Exists (fun q => String.prefix (effectivePrefix prefix) q = false)
                        (Prefixes result))) as [Hp|Hp]; [right; exact Hp|].
    exfalso.
    destruct (split_all_prefixed Name (effectivePrefix prefix) (Objects result)
                (Forall_of_not_Exists_false (fun o => String.prefix (effectivePrefix prefix) (Name o)) _ Ho))
      as [ns Hns].
    destruct (split_all_prefixed (fun q => q) (effectivePrefix prefix) (Prefixes result)
                (Forall_of_not_Exists_false (fun q => String.prefix (effectivePrefix prefix) q) _ Hp))
      as [ms Hms].
    rewrite (ToNamesWithoutPrefix_done_effective result prefix ns ms Hns Hms) in Herr.
    discriminate.
  - rewrite ToNamesWithoutPrefix_effective. intros [Ho|Hp].
    + destruct (cutObjectNames_failed _ _ [] Ho) as [err ->]. exists err. done.
    + destruct (cutObjectNames (effectivePrefix prefix) (Objects result) []) as [names|err].
      * exact (cutPrefixNames_failed _ _ names Hp).
      * exists err. done.
Qed.

(** A non-blank prefix that ends in "/" gets a second "/" before it is
    cut, so an object listed right under it (its remaining name not
    starting with "/") makes [ToNamesWithoutPrefix] fail. *)
Theorem ToNamesWithoutPrefix_doubled_delimiter (result : ListResult) (prefix : string)
    (o : ObjectAttributes) (n : string) :
  prefix <> ""%string ->
  gostrings.HasSuffix prefix Delim = true ->
  In o (Objects result) ->
  Name o = (prefix ++ n)%string ->
  String.prefix Delim n = false ->
  exists err, ToNamesWithoutPrefix result prefix = Failed err.
Proof.
  intros Hne Hs Hin Hname Hn.
  assert (He : effectivePrefix prefix = (prefix ++ Delim)%string).
  { unfold effectivePrefix. rewrite Hs.
    destruct (String.eqb prefix "") eqn:E; [apply String.eqb_eq in E; contradiction|done]. }
  rewrite ToNamesWithoutPrefix_effective.
  assert (Hex : Exists (fun o => String.prefix (effectivePrefix prefix) (Name o) = false)
                  (Objects result)).
  { apply Exists_exists. exists o. split; [apply list_elem_of_In; exact Hin|].
    rewrite He, Hname, string_prefix_app_cancel. exact Hn. }
  destruct (cutObjectNames_failed _ _ [] Hex) as [err ->]. exists err. done.
Qed.

Lemma ToNamesWithoutPrefix_doubled_delimiter_witness :
  exists err,
  ToNamesWithoutPrefix
    {| Objects := [Build_ObjectAttributes "tenant/block" 0 (Build_VersionInfo "v1" true false false)];
       Prefixes := [] |} "tenant/" = Failed err.
Proof.
  apply (ToNamesWithoutPrefix_doubled_delimiter
    {| Objects := [Build_ObjectAttributes "tenant/block" 0 (Build_VersionInfo "v1" true false false)];
       Prefixes := [] |} "tenant/"
    (Build_ObjectAttributes "tenant/block" 0 (Build_VersionInfo "v1" true false false)) "block").
  - discriminate.
  - reflexivity.
  - left. reflexivity.
  - reflexivity.
  - reflexivity.
Defined.

End ObjtoolsTheorems.

Section BucketConfigTheorems.
Import objtools.
Variables (AzureClientConfig GCSClientConfig S3ClientConfig : Type)
  (azureValidate : AzureClientConfig -> string -> option string)
  (gcsValidate : GCSClientConfig -> string -> option string)
  (s3Validate : S3ClientConfig -> string -> option string).

(** A bucket configuration is valid exactly when its service is "abs",
    "gcs" or "s3" and that service's client configuration accepts the flag
    prefix ["azure-"], ["gcs-"] or ["s3-"] followed by the descriptor and
    "-" (nothing for a blank descriptor); the other two client
    configurations are not looked at. *)
Theorem validate_ok_iff (c : BucketConfig AzureClientConfig GCSClientConfig S3ClientConfig)
    (descriptor : string) :
  validate AzureClientConfig GCSClientConfig S3ClientConfig azureValidate gcsValidate s3Validate
    c descriptor = None <->
  (service c = serviceABS /\
     azureValidate (azure c) ("azure-" ++ ifNotEmptySuffix descriptor "-")%string = None) \/
  (service c = serviceGCS /\
     gcsValidate (gcs c) ("gcs-" ++ ifNotEmptySuffix descriptor "-")%string = None) \/
  (service c = serviceS3 /\
     s3Validate (s3 c) ("s3-" ++ ifNotEmptySuffix descriptor "-")%string = None).
Proof.
  unfold validate.
  destruct (String.eqb (service c) "") eqn:E0;
    [|destruct (String.eqb (service c) serviceABS) eqn:E1;
      [|destruct (String.eqb (service c) serviceGCS) eqn:E2;
        [|destruct (String.eqb (service c) serviceS3) eqn:E3]]];
    rewrite ?String.eqb_eq, ?String.eqb_neq in *;
    unfold serviceABS, serviceGCS, serviceS3 in *; intuition congruence.
Qed.

End BucketConfigTheorems.

Section IndexcacheTheorems.
Import indexcache.

Lemma list_byte_of_string_length (s : string) :
  length (list_byte_of_string s) = String.length s.
Proof. unfold list_byte_of_string. rewrite length_map. apply list_ascii_of_string_length. Qed.

(** The series-for-ref cache key tells its tenant, block and series
    apart: for block IDs in their 26-character ULID form, equal keys come
    from equal tenants, blocks and series references, even when a tenant ID
    holds ":". *)
Theorem seriesForRefCacheKey_injective (userID1 blockID1 : string) (id1 : N)
    (userID2 blockID2 : string) (id2 : N) :
  String.length blockID1 = 26 ->
  String.length blockID2 = 26 ->
  seriesForRefCacheKey userID1 blockID1 id1 = seriesForRefCacheKey userID2 blockID2 id2 ->
  userID1 = userID2 /\ blockID1 = blockID2 /\ id1 = id2.
Proof.
  intros Hb1 Hb2 H. unfold seriesForRefCacheKey in H.
  apply (f_equal list_ascii_of_string) in H.
  rewrite !list_ascii_of_string_app in H. cbn [list_ascii_of_string app] in H.
  injection H as H.
  assert (H' : (list_ascii_of_string userID1 ++ ":"%char :: list_ascii_of_string blockID1) ++
                 ":"%char :: list_ascii_of_string (formatUint id1) =
               (list_ascii_of_string userID2 ++ ":"%char :: list_ascii_of_string blockID2) ++
                 ":"%char :: list_ascii_of_string (formatUint id2))
    by (rewrite <- !app_assoc; exact H).
  clear H.
  apply split_at_last_sep in H'; [|apply formatUint_no_colon..].
  destruct H' as [H Hid].
  assert (H' : (list_ascii_of_string userID1 ++ [":"%char]) ++ list_ascii_of_string blockID1 =
               (list_ascii_of_string userID2 ++ [":"%char]) ++ list_ascii_of_string blockID2)
    by (rewrite <- !app_assoc; exact H).
  apply app_inj_2 in H' as [Hu Hb]; [|rewrite !list_ascii_of_string_length; lia].
  apply app_inj_tail in Hu as [Hu _].
  split; [apply list_ascii_of_string_inj; exact Hu|].
  split; [apply list_ascii_of_string_inj; exact Hb|].
  apply formatUint_inj, list_ascii_of_string_inj. exact Hid.
Qed.

Lemma seriesForRefCacheKey_injective_witness :
  "a:b"%string = "a:b"%string /\
  "01ARZ3NDEKTSV4RRFFQ69G5FAV"%string = "01ARZ3NDEKTSV4RRFFQ69G5FAV"%string /\ 42%N = 42%N.
Proof.
  apply (seriesForRefCacheKey_injective "a:b" "01ARZ3NDEKTSV4RRFFQ69G5FAV" 42
           "a:b" "01ARZ3NDEKTSV4RRFFQ69G5FAV" 42); reflexivity.
Defined.

(** [FetchMultiSeriesForRefs] returns as hits exactly the requested series
    whose key the remote cache answered, with the cached value, and as
    misses the requested series it did not answer, in request order. This
    also holds when the cache answers nothing, where the code returns early
    with all ids as misses. *)
Theorem FetchMultiSeriesForRefs_spec (GetMulti : list string -> gmap string (list Byte.byte))
    (userID blockID : string) (ids : list N) :
  let results := GetMulti (map (seriesForRefCacheKey userID blockID) ids) in
  (forall id, (FetchMultiSeriesForRefs GetMulti userID blockID ids).1 !! id =
     if decide (id ∈ ids) then results !! seriesForRefCacheKey userID blockID id else None) /\
  (FetchMultiSeriesForRefs GetMulti userID blockID ids).2 =
     filter (fun id => results !! seriesForRefCacheKey userID blockID id = None) ids.
Proof.
  intros results. unfold FetchMultiSeriesForRefs. fold results.
  destruct (size results =? 0) eqn:Es.
  - apply Nat.eqb_eq, map_size_empty_inv in Es. rewrite Es. cbn [fst snd]. split.
    + intros id. rewrite lookup_empty. destruct (decide (id ∈ ids)); rewrite ?lookup_empty; done.
    + clear. induction ids as [|i ids IH]; [done|]. rewrite filter_cons, decide_True.
      * rewrite <- IH. done.
      * apply lookup_empty.
  - destruct (collectSeriesHits_spec (seriesForRefCacheKey userID blockID)
                (foldl (fun m id => <[id := seriesForRefCacheKey userID blockID id]> m) ∅ ids)
                results ids) with (hits := (∅ : gmap N (list Byte.byte))) (misses := ([] : list N)) as [H1 H2].
    + intros id Hid. rewrite keysMapping_lookup, decide_True by exact Hid. done.
    + split; [|exact H2]. intros id. rewrite H1.
      destruct (decide (id ∈ ids)); [|apply lookup_empty].
      destruct (results !! seriesForRefCacheKey userID blockID id); [done|apply lookup_empty].
Qed.

(** A label short enough for the shortcut of [postingsCacheKeyLabelID]
    (name, ":" and value within 32 bytes) gets a 32-byte array, and the
    part [out[:outLen]] that [postingsCacheKey] encodes tells labels apart
    as long as label names hold no ":". *)
Theorem postingsCacheKeyLabelID_short_injective
    (blake2bSum256 : list Byte.byte -> list Byte.byte) (l1 l2 : Label) :
  ~ In ":"%char (list_ascii_of_string (LName l1)) ->
  ~ In ":"%char (list_ascii_of_string (LName l2)) ->
  String.length (LName l1) + 1 + String.length (LValue l1) <= Size256 ->
  String.length (LName l2) + 1 + String.length (LValue l2) <= Size256 ->
  length (postingsCacheKeyLabelID blake2bSum256 l1).1 = Size256 /\
  (take (postingsCacheKeyLabelID blake2bSum256 l1).2 (postingsCacheKeyLabelID blake2bSum256 l1).1 =
   take (postingsCacheKeyLabelID blake2bSum256 l2).2 (postingsCacheKeyLabelID blake2bSum256 l2).1 ->
   l1 = l2).
Proof.
  intros Hn1 Hn2 Hs1 Hs2. unfold postingsCacheKeyLabelID.
  apply Nat.leb_le in Hs1, Hs2. rewrite Hs1, Hs2. apply Nat.leb_le in Hs1, Hs2.
  cbn [fst snd].
  assert (Hlen : forall l : Label,
    length (list_byte_of_string (LName l ++ ":" ++ LValue l)%string) =
    String.length (LName l) + 1 + String.length (LValue l)).
  { intros l. rewrite list_byte_of_string_length, !string_length_app. simpl. lia. }
  split.
  - rewrite length_app, repeat_length, Hlen. unfold Size256 in *. lia.
  - rewrite !take_app_length. intros H.
    apply (f_equal string_of_list_byte) in H. rewrite !string_of_list_byte_of_string in H.
    apply (f_equal list_ascii_of_string) in H. rewrite !list_ascii_of_string_app in H.
    cbn [list_ascii_of_string app] in H.
    apply split_at_first_sep in H as [Hn Hv]; [|exact Hn1|exact Hn2].
    apply list_ascii_of_string_inj in Hn, Hv.
    destruct l1, l2. cbn in *. subst. done.
Qed.

Lemma postingsCacheKeyLabelID_short_injective_witness :
  length (postingsCacheKeyLabelID (fun b => b) {| LName := "job"; LValue := "api" |}).1 = Size256 /\
  (take (postingsCacheKeyLabelID (fun b => b) {| LName := "job"; LValue := "api" |}).2
        (postingsCacheKeyLabelID (fun b => b) {| LName := "job"; LValue := "api" |}).1 =
   take (postingsCacheKeyLabelID (fun b => b) {| LName := "instance"; LValue := "host:9090" |}).2
        (postingsCacheKeyLabelID (fun b => b) {| LName := "instance"; LValue := "host:9090" |}).1 ->
   {| LName := "job"; LValue := "api" |} = {| LName := "instance"; LValue := "host:9090" |}).
Proof.
  apply postingsCacheKeyLabelID_short_injective.
  - simpl. intuition discriminate.
  - simpl. intuition discriminate.
  - simpl. unfold Size256. lia.
  - simpl. unfold Size256. lia.
Defined.

End IndexcacheTheorems.

Section TSDBTheorems.
Import tsdb.

(** [x & (x-1) == 0] for [x > 1] is the power-of-two test. *)
Lemma land_pred_pow2 (x : Z) :
  (1 < x)%Z -> (Z.land x (x - 1) = 0 <-> exists k, (1 <= k)%Z /\ x = (2 ^ k)%Z)%Z.
Proof.
  intros Hx. split.
  - intros H. exists (Z.log2 x).
    assert (Hk : (0 < Z.log2 x)%Z) by (apply Z.log2_pos; lia).
    split; [lia|].
    destruct (Z.log2_spec x ltac:(lia)) as [Hlo Hhi].
    destruct (Z.eq_dec x (2 ^ Z.log2 x)%Z) as [Heq|Hne]; [exact Heq|exfalso].
    assert (Hlog : Z.log2 (x - 1) = Z.log2 x)
      by (apply Z.log2_unique; [lia|split; lia]).
    assert (Hb1 : Z.testbit x (Z.log2 x) = true) by (apply Z.bit_log2; lia).
    assert (Hb2 : Z.testbit (x - 1) (Z.log2 x) = true)
      by (rewrite <- Hlog; apply Z.bit_log2; lia).
    assert (Hb : Z.testbit (Z.land x (x - 1)) (Z.log2 x) = true)
      by (rewrite Z.land_spec, Hb1, Hb2; done).
    rewrite H, Z.testbit_0_l in Hb. discriminate.
  - intros [k [Hk ->]].
    assert (Hones : (2 ^ k - 1 = Z.ones k)%Z) by (rewrite Z.ones_equiv; lia).
    rewrite Hones, Z.land_ones by lia. apply Z_mod_same_full.
Qed.

(** [TSDBConfig.Validate] accepts a configuration exactly when: shipping
    enabled implies a positive shipping concurrency, the opening
    concurrency and the head compaction concurrency are positive, the head
    compaction interval is in (0, 15m], the chunks write buffer size is a
    multiple of 1024 within the chunks package's bounds, the stripe size is
    a power of two of at least 2, there is a block range, the WAL segment
    size is positive, the WAL replay concurrency is not negative, early
    head compaction requires active series tracking, and the early
    compaction reduction percentage is in [0, 100]. *)
Theorem TSDBConfig_Validate_ok_iff (MinWriteBufferSize MaxWriteBufferSize : Z) (cfg : TSDBConfig)
    (activeSeriesEnabled : bool) :
  Validate MinWriteBufferSize MaxWriteBufferSize cfg activeSeriesEnabled = None <->
  ((0 < ShipInterval cfg -> 0 < ShipConcurrency cfg) /\
   0 < DeprecatedMaxTSDBOpeningConcurrencyOnStartup cfg /\
   0 < HeadCompactionInterval cfg <= 15 * Minute /\
   0 < HeadCompactionConcurrency cfg /\
   MinWriteBufferSize <= HeadChunksWriteBufferSize cfg <= MaxWriteBufferSize /\
   Z.rem (HeadChunksWriteBufferSize cfg) 1024 = 0 /\
   (exists k, 1 <= k /\ StripeSize cfg = 2 ^ k) /\
   BlockRanges cfg <> [] /\
   0 < WALSegmentSizeBytes cfg /\
   0 <= WALReplayConcurrency cfg /\
   (0 < EarlyHeadCompactionMinInMemorySeries cfg -> activeSeriesEnabled = true) /\
   0 <= EarlyHeadCompactionMinEstimatedSeriesReductionPercentage cfg <= 100)%Z.
Proof.
  unfold Validate.
  destruct ((0 <? ShipInterval cfg)%Z && (ShipConcurrency cfg <=? 0)%Z) eqn:E1.
  { split; [discriminate|]. intros [H _].
    apply andb_true_iff in E1 as [E1a E1b]. apply Z.ltb_lt in E1a. apply Z.leb_le in E1b.
    specialize (H E1a). lia. }
  destruct (DeprecatedMaxTSDBOpeningConcurrencyOnStartup cfg <=? 0)%Z eqn:E2.
  { split; [discriminate|]. intros (_ & H & _). apply Z.leb_le in E2. lia. }
  destruct ((HeadCompactionInterval cfg <=? 0)%Z || (15 * Minute <? HeadCompactionInterval cfg)%Z)
    eqn:E3.
  { split; [discriminate|]. intros (_ & _ & H & _).
    apply orb_true_iff in E3 as [E3|E3]; [apply Z.leb_le in E3|apply Z.ltb_lt in E3]; lia. }
  destruct (HeadCompactionConcurrency cfg <=? 0)%Z eqn:E4.
  { split; [discriminate|]. intros (_ & _ & _ & H & _). apply Z.leb_le in E4. lia. }
  destruct ((HeadChunksWriteBufferSize cfg <? MinWriteBufferSize)%Z ||
            (MaxWriteBufferSize <? HeadChunksWriteBufferSize cfg)%Z ||
            negb (Z.rem (HeadChunksWriteBufferSize cfg) 1024 =? 0)%Z) eqn:E5.
  { split; [discriminate|]. intros (_ & _ & _ & _ & H & Hr & _).
    apply orb_true_iff in E5 as [E5|E5]; [apply orb_true_iff in E5 as [E5|E5]|].
    - apply Z.ltb_lt in E5. lia.
    - apply Z.ltb_lt in E5. lia.
    - apply negb_true_iff, Z.eqb_neq in E5. contradiction. }
  destruct ((StripeSize cfg <=? 1)%Z || negb (Z.land (StripeSize cfg) (StripeSize cfg - 1) =? 0)%Z)
    eqn:E6.
  { split; [discriminate|]. intros (_ & _ & _ & _ & _ & _ & [k [Hk Hs]] & _).
    assert (H2 : (2 ^ 1 <= 2 ^ k)%Z) by (apply Z.pow_le_mono_r; lia).
    apply orb_true_iff in E6 as [E6|E6].
    - apply Z.leb_le in E6. simpl in H2. lia.
    - apply negb_true_iff, Z.eqb_neq in E6. exfalso. apply E6.
      apply land_pred_pow2; [simpl in H2; lia|]. exists k. done. }
  destruct (length (BlockRanges cfg) =? 0) eqn:E7.
  { split; [discriminate|]. intros (_ & _ & _ & _ & _ & _ & _ & H & _).
    apply Nat.eqb_eq, length_zero_iff_nil in E7. contradiction. }
  destruct (WALSegmentSizeBytes cfg <=? 0)%Z eqn:E8.
  { split; [discriminate|]. intros (_ & _ & _ & _ & _ & _ & _ & _ & H & _).
    apply Z.leb_le in E8. lia. }
  destruct (WALReplayConcurrency cfg <? 0)%Z eqn:E9.
  { split; [discriminate|]. intros (_ & _ & _ & _ & _ & _ & _ & _ & _ & H & _).
    apply Z.ltb_lt in E9. lia. }
  destruct ((0 <? EarlyHeadCompactionMinInMemorySeries cfg)%Z && negb activeSeriesEnabled) eqn:E10.
  { split; [discriminate|]. intros (_ & _ & _ & _ & _ & _ & _ & _ & _ & _ & H & _).
    apply andb_true_iff in E10 as [E10a E10b]. apply Z.ltb_lt in E10a.
    rewrite (H E10a) in E10b. discriminate. }
  destruct ((EarlyHeadCompactionMinEstimatedSeriesReductionPercentage cfg <? 0)%Z ||
            (100 <? EarlyHeadCompactionMinEstimatedSeriesReductionPercentage cfg)%Z) eqn:E11.
  { split; [discriminate|]. intros (_ & _ & _ & _ & _ & _ & _ & _ & _ & _ & _ & H).
    apply orb_true_iff in E11 as [E11|E11]; apply Z.ltb_lt in E11; lia. }
  split; [intros _|done].
  apply andb_false_iff in E1. apply Z.leb_gt in E2. apply orb_false_iff in E3 as [E3a E3b].
  apply Z.leb_gt in E3a. apply Z.ltb_ge in E3b. apply Z.leb_gt in E4.
  apply orb_false_iff in E5 as [E5 E5c]. apply orb_false_iff in E5 as [E5a E5b].
  apply Z.ltb_ge in E5a. apply Z.ltb_ge in E5b. apply negb_false_iff, Z.eqb_eq in E5c.
  apply orb_false_iff in E6 as [E6a E6b]. apply Z.leb_gt in E6a.
  apply negb_false_iff, Z.eqb_eq in E6b.
  apply Nat.eqb_neq in E7. apply Z.leb_gt in E8. apply Z.ltb_ge in E9.
  apply andb_false_iff in E10. apply orb_false_iff in E11 as [E11a E11b].
  apply Z.ltb_ge in E11a. apply Z.ltb_ge in E11b.
  split.
  { intros H. destruct E1 as [E1|E1]; [apply Z.ltb_ge in E1; lia|apply Z.leb_gt in E1; lia]. }
  do 5 (split; [lia|]).
  split; [apply land_pred_pow2; [lia|exact E6b]|].
  split; [intros H; rewrite H in E7; done|].
  do 2 (split; [lia|]).
  split; [|lia].
  intros H. destruct E10 as [E10|E10]; [apply Z.ltb_ge in E10; lia|].
  apply negb_false_iff in E10. exact E10.
Qed.

End TSDBTheorems.

Section CacheKeyTheorems.
Import indexcache.

(** All item types share one remote cache, and their keys never collide:
    each key starts with its own tag ("P2:", "S:", "E2:", "SP2:", "LN:",
    "LV2:"), so equal keys come from items of the same type. *)
Theorem cacheItemKey_types_disjoint {ShardSelector : Type}
    (blake2bSum256 : list Byte.byte -> list Byte.byte) (base64Encode : list Byte.byte -> string)
    (shardKey : ShardSelector -> string) (item1 item2 : CacheItem ShardSelector) (key : string) :
  cacheItemKey blake2bSum256 base64Encode shardKey item1 = Some key ->
  cacheItemKey blake2bSum256 base64Encode shardKey item2 = Some key ->
  cacheItemType item1 = cacheItemType item2.
Proof.
  intros H1 H2. rewrite <- H2 in H1. clear H2.
  destruct item1, item2; cbn [cacheItemType]; try reflexivity; exfalso;
    cbn [cacheItemKey] in H1; unfold postingsCacheKey in H1;
    repeat match type of H1 with
    | context [let '(_, _) := ?p in _] => destruct p
    | context [if ?b then _ else _] => destruct b
    end;
    try discriminate;
    injection H1 as H1;
    unfold seriesForRefCacheKey, expandedPostingsCacheKey, seriesForPostingsCacheKey,
      labelNamesCacheKey, labelValuesCacheKey in H1; cbn in H1; discriminate.
Qed.

Lemma cacheItemKey_types_disjoint_witness :
  cacheItemKey (fun b => b) (fun _ => "hash") (fun (_ : nat) => "1_of_16")
    (@SeriesForRefItem nat "tenant" "01ARZ3NDEKTSV4RRFFQ69G5FAV" 7) =
    Some "S:tenant:01ARZ3NDEKTSV4RRFFQ69G5FAV:7"%string /\
  cacheItemType (@SeriesForRefItem nat "tenant" "01ARZ3NDEKTSV4RRFFQ69G5FAV" 7) =
  cacheItemType (@SeriesForRefItem nat "tenant" "01ARZ3NDEKTSV4RRFFQ69G5FAV" 7).
Proof.
  split; [reflexivity|].
  apply (cacheItemKey_types_disjoint (fun b => b) (fun _ => "hash"%string) (fun (_ : nat) => "1_of_16"%string)
           (SeriesForRefItem "tenant" "01ARZ3NDEKTSV4RRFFQ69G5FAV" 7)
           (SeriesForRefItem "tenant" "01ARZ3NDEKTSV4RRFFQ69G5FAV" 7)
           "S:tenant:01ARZ3NDEKTSV4RRFFQ69G5FAV:7"); reflexivity.
Defined.

End CacheKeyTheorems.
